(** * doom-ascii-pdf: the text renderer and the key event queue

    A shallow embedding of [src/doomgeneric_ascii.c] (and of the two
    resolution globals of [src/doomgeneric.c]).

    Conventions.
    - C integers are [Z]; every conversion to a fixed width is written
      out ([to_uint32], [to_ushort], [to_uchar], [to_char]).
    - C arrays are lists, read with [q !! i] and written with
      [<[i := v]> q] (stdpp).  An out-of-range access is undefined
      behaviour in C; the size hypotheses of the theorems exclude it.
    - Global variables are record fields: [Input] holds those of the key
      queue and the hold table, [State] adds those of the renderer.  A
      function takes the record and returns it updated. *)

From Stdlib Require Import ZArith Lia List String Ascii.
From stdpp Require Import base tactics option list.

Local Open Scope Z_scope.

(** ** Fixed-width conversions *)

Definition to_uint32 (x : Z) : Z := x mod 2 ^ 32.
Definition to_ushort (x : Z) : Z := x mod 2 ^ 16.
Definition to_uchar (x : Z) : Z := x mod 2 ^ 8.

(** [char] is a signed 8-bit type on the targets this code is built for
    (Emscripten, x86). *)
Definition to_char (x : Z) : Z := (x + 128) mod 2 ^ 8 - 128.

(** ** The glyph ramp *)

Definition GRAD_LEN : Z := 70.

(** The characters of the initialiser of [grad], without the quotation
    mark that sits at index 5. *)
Definition grad_head : string := " .'`^".
Definition grad_tail : string :=
  ",:;Il!i><~+_-?][}{1)(|\/tfjrxnuvczXYUJCLQ0OZmwqpdbkhao*#MW&8%B@$".

Definition char_codes (s : string) : list Z :=
  map (fun c => Z.of_nat (nat_of_ascii c)) (list_ascii_of_string s).

(** [static const char grad[]]: the 70 ramp characters and the
    terminating NUL of the string literal. *)
Definition grad : list Z :=
  Eval cbv in char_codes grad_head ++ [34] ++ char_codes grad_tail ++ [0].

(** ** Pixels

    [struct color_t] is four 8-bit bit-fields [b], [g], [r], [a] laid over
    one [uint32_t] of [DG_ScreenBuffer]; the first declared field occupies
    the least significant bits (the little-endian ABI of the supported
    targets). *)
Module color_t.
Definition b (pixel : Z) : Z := Z.land pixel 255.
Definition g (pixel : Z) : Z := Z.land (Z.shiftr pixel 8) 255.
Definition r (pixel : Z) : Z := Z.land (Z.shiftr pixel 16) 255.
Definition a (pixel : Z) : Z := Z.land (Z.shiftr pixel 24) 255.
End color_t.

(** [pixel->r + pixel->g + pixel->b] *)
Definition brightness (pixel : Z) : Z :=
  color_t.r pixel + color_t.g pixel + color_t.b pixel.

(** The subscript of line 134, [brightness * GRAD_LEN / 766u]: the
    product is taken in [unsigned] arithmetic. *)
Definition grad_index (bright : Z) : Z :=
  to_uint32 (bright * GRAD_LEN) / 766.

(** [grad[...]]; the default is never reached for an index below 71. *)
Definition v_char (pixel : Z) : Z :=
  default 0 (grad !! Z.to_nat (grad_index (brightness pixel))).

(** The formula as the specification words it first:
    [brightness * RAMP_LEN / (3 * 255)], with integer division. *)
Definition spec_index (bright : Z) : Z :=
  bright * GRAD_LEN / (3 * 255).

(** ** The key queue and the hold table (lines 178-248)

    [Input] gathers the input-side globals.  [enqueued] is a history
    variable, not a C object: it lists the arguments of every call of
    [addKeyToQueue] so far, oldest first, and no function reads it. *)

Definition KEYQUEUE_SIZE : Z := 16.
Definition KEY_HOLD_KEYS : nat := 7.
Definition KEY_HOLD_FRAMES : Z := 2.

Record Input := mkInput {
  s_KeyQueue : list Z;             (* unsigned short [KEYQUEUE_SIZE] *)
  s_KeyQueueWriteIndex : Z;        (* unsigned int *)
  s_KeyQueueReadIndex : Z;         (* unsigned int *)
  keyHold : list Z;                (* int [KEY_HOLD_KEYS] *)
  enqueued : list (Z * Z)
}.

(** Static storage is zero-initialised. *)
Definition initial_input : Input :=
  {| s_KeyQueue := replicate (Z.to_nat KEYQUEUE_SIZE) 0;
     s_KeyQueueWriteIndex := 0;
     s_KeyQueueReadIndex := 0;
     keyHold := replicate KEY_HOLD_KEYS 0;
     enqueued := [] |}.

Definition set_keyHold (h : list Z) (s : Input) : Input :=
  {| s_KeyQueue := s_KeyQueue s;
     s_KeyQueueWriteIndex := s_KeyQueueWriteIndex s;
     s_KeyQueueReadIndex := s_KeyQueueReadIndex s;
     keyHold := h;
     enqueued := enqueued s |}.

(** [key] arrives as an [unsigned char]; callers convert.  The shift and
    the or are done on [int], the assignment to [keyData] keeps the low
    16 bits. *)
Definition addKeyToQueue (pressed key : Z) (s : Input) : Input :=
  let keyData := to_ushort (Z.lor (Z.shiftl pressed 8) key) in
  {| s_KeyQueue := <[Z.to_nat (s_KeyQueueWriteIndex s) := keyData]> (s_KeyQueue s);
     s_KeyQueueWriteIndex := to_uint32 (s_KeyQueueWriteIndex s + 1) mod KEYQUEUE_SIZE;
     s_KeyQueueReadIndex := s_KeyQueueReadIndex s;
     keyHold := keyHold s;
     enqueued := enqueued s ++ [(pressed, key)] |}.

(** [DG_GetKey(&pressed, &doomKey)]: the first two arguments are the
    values the caller's two locations hold before the call; the result is
    the return value, the two locations after the call, and the state. *)
Definition DG_GetKey (pressed doomKey : Z) (s : Input) : Z * (Z * Z) * Input :=
  if s_KeyQueueReadIndex s =? s_KeyQueueWriteIndex s then
    (0, (pressed, doomKey), s)
  else
    let keyData := default 0 (s_KeyQueue s !! Z.to_nat (s_KeyQueueReadIndex s)) in
    (1,
     (Z.shiftr keyData 8, to_uchar (Z.land keyData 255)),
     {| s_KeyQueue := s_KeyQueue s;
        s_KeyQueueWriteIndex := s_KeyQueueWriteIndex s;
        s_KeyQueueReadIndex := to_uint32 (s_KeyQueueReadIndex s + 1) mod KEYQUEUE_SIZE;
        keyHold := keyHold s;
        enqueued := enqueued s |}).

(** The key codes come from [doomkeys.h], which is not part of the
    sources at hand: they are parameters of the development. *)
Class doomkeys := {
  KEY_FIRE : Z;
  KEY_USE : Z;
  KEY_ENTER : Z;
  KEY_LEFTARROW : Z;
  KEY_RIGHTARROW : Z;
  KEY_UPARROW : Z;
  KEY_DOWNARROW : Z
}.

Section HoldKeys.
Context {dk : doomkeys}.

(** [char const keyHoldKeys[KEY_HOLD_KEYS]]: each initialiser is
    converted to [char]. *)
Definition keyHoldKeys : list Z :=
  map to_char
    [KEY_FIRE; KEY_USE; KEY_ENTER;
     KEY_LEFTARROW; KEY_RIGHTARROW; KEY_UPARROW; KEY_DOWNARROW].

(** The loop of [pressKey] over the indices [js] still to visit; the
    first match stores and leaves the loop ([break]). *)
Fixpoint pressKey_loop (js : list nat) (key : Z) (s : Input) : Input :=
  match js with
  | [] => s
  | j :: js' =>
      if default 0 (keyHoldKeys !! j) =? key
      then set_keyHold (<[j := KEY_HOLD_FRAMES]> (keyHold s)) s
      else pressKey_loop js' key s
  end.

(** [pressKey(char key)] *)
Definition pressKey (key : Z) (s : Input) : Input :=
  pressKey_loop (seq 0 KEY_HOLD_KEYS) key (addKeyToQueue 1 (to_uchar key) s).

(** The body of the loop of [decrementKeyCtrs] at index [i]. *)
Definition decrementKeyCtr (s : Input) (i : nat) : Input :=
  if 0 <? default 0 (keyHold s !! i) then
    let s1 := set_keyHold (<[i := default 0 (keyHold s !! i) - 1]> (keyHold s)) s in
    if default 0 (keyHold s1 !! i) =? 0
    then addKeyToQueue 0 (to_uchar (default 0 (keyHoldKeys !! i))) s1
    else s1
  else s.

(** [decrementKeyCtrs()]: the body at the indices 0 to
    [KEY_HOLD_KEYS - 1], in order. *)
Definition decrementKeyCtrs (s : Input) : Input :=
  foldl decrementKeyCtr s (seq 0 KEY_HOLD_KEYS).
End HoldKeys.

(** ** The renderer (lines 99-161) *)

Record State := mkState {
  DOOMGENERIC_RESX : Z;            (* unsigned, doomgeneric.c *)
  DOOMGENERIC_RESY : Z;            (* unsigned, doomgeneric.c *)
  DG_ScreenBuffer : list Z;        (* uint32_t per pixel *)
  output_buffer : list Z;          (* the malloc'ed block, char per cell *)
  stdout : list Z;                 (* every byte printed so far *)
  input : Input
}.

(** [doomgeneric.c] initialises the two resolution globals. *)
Definition RESX_default : Z := 160.
Definition RESY_default : Z := 100.

(** The locals of [DG_DrawFrame] that the loops advance: [pixel] and
    [buf] as offsets into [DG_ScreenBuffer] and [output_buffer], and the
    contents of the block [buf] writes to. *)
Definition Cursor : Type := nat * nat * list Z.

(** Lines 134-137, one iteration of the inner loop. *)
Definition draw_pixel (screen : list Z) (c : Cursor) : Cursor :=
  let '(pixel, buf, mem) := c in
  let v := v_char (default 0 (screen !! pixel)) in
  (S pixel, S (S buf), <[S buf := v]> (<[buf := v]> mem)).

(** Lines 115-139, one iteration of the outer loop: [resx] pixels, then
    the newline. *)
Definition draw_row (resx : nat) (screen : list Z) (c : Cursor) : Cursor :=
  let '(pixel, buf, mem) := Nat.iter resx (draw_pixel screen) c in
  (pixel, S buf, <[buf := 10]> mem).

(** Lines 114-140. *)
Definition draw_rows (resy resx : nat) (screen : list Z) (c : Cursor) : Cursor :=
  Nat.iter resy (draw_row resx screen) c.

(** What [printf("%s", p)] prints: the bytes before the first NUL. *)
Fixpoint c_string (mem : list Z) : list Z :=
  match mem with
  | [] => []
  | c :: mem' => if c =? 0 then [] else c :: c_string mem'
  end.

(** [memset(output_buffer, c, n)] *)
Definition memset (mem : list Z) (c : Z) (n : nat) : list Z :=
  list_inserts 0 (replicate n c) mem.

Section Renderer.
Context {dk : doomkeys}.

(** [DG_DrawFrame()].  [EM_ASM(draw_frame())] runs a script of the host
    page, which is not among these sources; it is taken not to write
    the C globals and is left out. *)
Definition DG_DrawFrame (st : State) : State :=
  let '(_, buf, mem) :=
    draw_rows (Z.to_nat (DOOMGENERIC_RESY st)) (Z.to_nat (DOOMGENERIC_RESX st))
      (DG_ScreenBuffer st) (0%nat, 0%nat, output_buffer st) in
  {| DOOMGENERIC_RESX := DOOMGENERIC_RESX st;
     DOOMGENERIC_RESY := DOOMGENERIC_RESY st;
     DG_ScreenBuffer := DG_ScreenBuffer st;
     output_buffer := memset mem 0 (buf + 1);
     stdout := stdout st ++ c_string mem;
     input := decrementKeyCtrs (input st) |}.
End Renderer.

(** ** Derived notions used by the statements *)

(** The array sizes the C declarations fix. *)
Definition well_sized (s : Input) : Prop :=
  length (s_KeyQueue s) = Z.to_nat KEYQUEUE_SIZE ∧
  length (keyHold s) = KEY_HOLD_KEYS.

Definition cursors_in_range (s : Input) : Prop :=
  0 <= s_KeyQueueWriteIndex s < KEYQUEUE_SIZE ∧
  0 <= s_KeyQueueReadIndex s < KEYQUEUE_SIZE.

(** Enqueue a list of [(pressed, key)] events, first to last. *)
Definition enqueue_all (evs : list (Z * Z)) (s : Input) : Input :=
  foldl (fun s e => addKeyToQueue e.1 e.2 s) s evs.

(** [n] successive calls of [DG_GetKey]; each result is the return value
    with the contents of the two output locations, which every call
    finds zeroed. *)
Fixpoint dequeue_n (n : nat) (s : Input) : list (Z * (Z * Z)) * Input :=
  match n with
  | O => ([], s)
  | S n' =>
      let '(ret, out, s1) := DG_GetKey 0 0 s in
      let '(rest, s2) := dequeue_n n' s1 in
      ((ret, out) :: rest, s2)
  end.

(** The events waiting in the ring, oldest first: the slots from the
    read cursor up to the write cursor, modulo the capacity. *)
Definition slot (q : list Z) (i : Z) : Z := default 0 (q !! Z.to_nat i).

Definition pending (s : Input) : list Z :=
  map (fun i => slot (s_KeyQueue s)
                  ((s_KeyQueueReadIndex s + Z.of_nat i) mod KEYQUEUE_SIZE))
      (seq 0 (Z.to_nat ((s_KeyQueueWriteIndex s - s_KeyQueueReadIndex s)
                        mod KEYQUEUE_SIZE))).

(** What one tick does to a single counter. *)
Definition aged (c : Z) : Z := if 0 <? c then c - 1 else c.

(** The release events one tick enqueues, given the key table and the
    counters it finds: one for each counter that stands at 1, in table
    order. *)
Definition due (keys holds : list Z) : list (Z * Z) :=
  flat_map (fun kc => if kc.2 =? 1 then [(0, to_uchar kc.1)] else []) (zip keys holds).

(** The number of release events [(0, key)] in a history. *)
Definition release_count (key : Z) (history : list (Z * Z)) : nat :=
  length (filter (fun e => e = (0, to_uchar key)) history).

(** The glyphs of [n] consecutive pixels starting at offset [pixel],
    each one twice. *)
Definition pixels_text (screen : list Z) (pixel n : nat) : list Z :=
  flat_map (fun col =>
              let v := v_char (default 0 (screen !! (pixel + col)%nat)) in
              [v; v])
           (seq 0 n).

(** A character that is neither the string terminator nor the line
    terminator. *)
Definition is_glyph (c : Z) : Prop := c ≠ 0 ∧ c ≠ 10.

(** [output_buffer_size] as [DG_Init] computes it,
    [21u * RESX * RESY + RESY + 4u] in unsigned arithmetic (wrapping once
    at the end gives the same value as wrapping at every step). *)
Definition output_buffer_size (resx resy : Z) : Z :=
  to_uint32 (21 * resx * resy + resy + 4).

(** The text of one frame, row by row: every pixel's glyph twice, then a
    newline. *)
Definition row_text (resx : nat) (screen : list Z) (row : nat) : list Z :=
  flat_map (fun col =>
              let v := v_char (default 0 (screen !! (row * resx + col)%nat)) in
              [v; v])
           (seq 0 resx) ++ [10].

Definition frame_text (resy resx : nat) (screen : list Z) : list Z :=
  flat_map (row_text resx screen) (seq 0 resy).

(** The operations a host can perform on the input side. *)
Inductive op : Type :=
  | Enqueue (pressed key : Z)      (* addKeyToQueue *)
  | Dequeue (pressed doomKey : Z)  (* DG_GetKey, with the old contents of its outputs *)
  | Press (key : Z)                (* pressKey *)
  | Tick.                          (* decrementKeyCtrs *)

Section Runs.
Context {dk : doomkeys}.

Definition step (s : Input) (o : op) : Input :=
  match o with
  | Enqueue pressed key => addKeyToQueue pressed key s
  | Dequeue pressed doomKey => (DG_GetKey pressed doomKey s).2
  | Press key => pressKey key s
  | Tick => decrementKeyCtrs s
  end.

Definition run (ops : list op) (s : Input) : Input := foldl step s ops.

Definition ticks (n : nat) (s : Input) : Input := Nat.iter n decrementKeyCtrs s.

(** Slot [j] of the hold table belongs to [key] and holds [c], and no
    other slot of [key] is counting. *)
Definition sole_timer (j : nat) (key : Z) (holds : list Z) (c : Z) : Prop :=
  keyHoldKeys !! j = Some key ∧ holds !! j = Some c ∧
  ∀ i, i ≠ j → keyHoldKeys !! i = Some key → holds !! i = Some 0.
End Runs.

(** The key codes of the [doomkeys.h] that ships with doomgeneric; they
    instantiate the parameters in the examples. *)
Definition doomkeys_h : doomkeys :=
  {| KEY_FIRE := 163; KEY_USE := 162; KEY_ENTER := 13;
     KEY_LEFTARROW := 172; KEY_RIGHTARROW := 174;
     KEY_UPARROW := 173; KEY_DOWNARROW := 175 |}.

(** An event the packing into one [unsigned short] keeps whole: both
    components fit a byte.  The events the program enqueues have
    [pressed] 0 or 1. *)
Definition packable (e : Z * Z) : Prop := 0 <= e.1 <= 255 ∧ 0 <= e.2 <= 255.

(** Two input states that agree on every C global (they may differ in
    the history variable). *)
Definition same_globals (s s' : Input) : Prop :=
  s_KeyQueue s = s_KeyQueue s' ∧
  s_KeyQueueWriteIndex s = s_KeyQueueWriteIndex s' ∧
  s_KeyQueueReadIndex s = s_KeyQueueReadIndex s' ∧
  keyHold s = keyHold s'.

(** ** Concrete inputs for the examples *)

(** Red, green and blue at 255. *)
Definition white_pixel : Z := 16777215.

(** A 160x100 frame of black pixels, in a state as [dg_Create] and one
    earlier frame leave it: the output buffer has the size [DG_Init] asks
    for and is zeroed. *)
Definition black_frame : State :=
  {| DOOMGENERIC_RESX := RESX_default;
     DOOMGENERIC_RESY := RESY_default;
     DG_ScreenBuffer := replicate (Z.to_nat (RESX_default * RESY_default)) 0;
     output_buffer := replicate (Z.to_nat (output_buffer_size RESX_default RESY_default)) 0;
     stdout := [];
     input := initial_input |}.

Definition with_input (s : Input) (st : State) : State :=
  {| DOOMGENERIC_RESX := DOOMGENERIC_RESX st;
     DOOMGENERIC_RESY := DOOMGENERIC_RESY st;
     DG_ScreenBuffer := DG_ScreenBuffer st;
     output_buffer := output_buffer st;
     stdout := stdout st;
     input := s |}.

(** A 2x2 frame (black, white, mid grey, pure blue) over an output
    buffer of the size [DG_Init] asks for, every cell holding [filler]. *)
Definition tiny_frame (filler : Z) : State :=
  {| DOOMGENERIC_RESX := 2;
     DOOMGENERIC_RESY := 2;
     DG_ScreenBuffer := [0; white_pixel; 8421504; 255];
     output_buffer := replicate (Z.to_nat (output_buffer_size 2 2)) filler;
     stdout := [];
     input := initial_input |}.

(** As many events as the queue has slots. *)
Definition sixteen_presses : list (Z * Z) := replicate 16 (1, 32).

(** ** The rest of the two files: start-up and the decimal macro *)

(** [malloc]: a block of [cells] cells whose contents are whatever the
    allocator left there, given as [contents].  A failed allocation is
    not modelled; the code does not test for it. *)
Definition malloc (cells : Z) (contents : nat → Z) : list Z :=
  map contents (seq 0 (Z.to_nat cells)).

(** [DG_Init()], lines 86-97.  The sum is computed in [unsigned]
    arithmetic, step by step.  [input_buffer], which the function also
    clears, is read by no function of the file and has no field. *)
Definition DG_Init (contents : nat → Z) (st : State) : State :=
  let output_buffer_size :=
    to_uint32 (to_uint32 (to_uint32 (to_uint32 (21 * DOOMGENERIC_RESX st)
                                     * DOOMGENERIC_RESY st)
                          + DOOMGENERIC_RESY st) + 4) in
  {| DOOMGENERIC_RESX := DOOMGENERIC_RESX st;
     DOOMGENERIC_RESY := DOOMGENERIC_RESY st;
     DG_ScreenBuffer := DG_ScreenBuffer st;
     output_buffer := malloc output_buffer_size contents;
     stdout := stdout st;
     input := input st |}.

(** [dg_Create()], doomgeneric.c lines 28-34: [RESX * RESY * 4] bytes,
    that is a quarter as many [uint32_t] cells, then [DG_Init]. *)
Definition dg_Create (pixels contents : nat → Z) (st : State) : State :=
  let bytes := to_uint32 (to_uint32 (DOOMGENERIC_RESX st * DOOMGENERIC_RESY st) * 4) in
  DG_Init contents
    {| DOOMGENERIC_RESX := DOOMGENERIC_RESX st;
       DOOMGENERIC_RESY := DOOMGENERIC_RESY st;
       DG_ScreenBuffer := malloc (bytes / 4) pixels;
       output_buffer := output_buffer st;
       stdout := stdout st;
       input := input st |}.

(** The macro [BYTE_TO_TEXT(buf, byte)], lines 57-62, on the write
    offset [buf] and the block it points into: three stores, each
    advancing [buf].  The digit is computed in [unsigned] arithmetic and
    stored as a [char]. *)
Definition BYTE_TO_TEXT (c : nat * list Z) (byte : Z) : nat * list Z :=
  let '(buf, mem) := c in
  let mem := <[buf := to_char (to_uint32 (48 + to_uint32 byte / 100))]> mem in
  let mem := <[S buf := to_char (to_uint32 (48 + to_uint32 byte / 10 mod 10))]> mem in
  let mem := <[S (S buf) := to_char (to_uint32 (48 + to_uint32 byte mod 10))]> mem in
  (S (S (S buf)), mem).

(** ** Further notions used by the statements *)

Section Frames.
Context {dk : doomkeys}.

(** [k] calls of [DG_DrawFrame], the host changing nothing in between. *)
Definition frames (k : nat) (st : State) : State := Nat.iter k DG_DrawFrame st.
End Frames.

(** A host's traffic on the queue: enqueue an event, or poll once. *)
Inductive qop : Type :=
  | Put (pressed key : Z)
  | Get.

(** The results of the polls of a traffic, in order, each the return
    value of [DG_GetKey] with its two outputs (zeroed before the call). *)
Fixpoint serve (ops : list qop) (s : Input) : list (Z * (Z * Z)) :=
  match ops with
  | [] => []
  | Put pressed key :: ops' => serve ops' (addKeyToQueue pressed key s)
  | Get :: ops' =>
      let '(ret, out, s') := DG_GetKey 0 0 s in (ret, out) :: serve ops' s'
  end.

(** The same traffic on an unbounded first-in first-out list. *)
Fixpoint fifo (ops : list qop) (waiting : list (Z * Z)) : list (Z * (Z * Z)) :=
  match ops with
  | [] => []
  | Put pressed key :: ops' => fifo ops' (waiting ++ [(pressed, key)])
  | Get :: ops' =>
      match waiting with
      | [] => (0, (0, 0)) :: fifo ops' []
      | e :: waiting' => (1, e) :: fifo ops' waiting'
      end
  end.

(** The traffic never has more than 15 events waiting, [n] waiting at
    its start, and enqueues events of byte-sized components only. *)
Fixpoint within_capacity (ops : list qop) (n : nat) : Prop :=
  match ops with
  | [] => True
  | Put pressed key :: ops' =>
      (n < 15)%nat ∧ packable (pressed, key) ∧ within_capacity ops' (S n)
  | Get :: ops' => within_capacity ops' (Nat.pred n)
  end.

(** An event as [addKeyToQueue] packs it into a slot. *)
Definition keyData (e : Z * Z) : Z := to_ushort (Z.lor (Z.shiftl e.1 8) e.2).

(** What the queue's own operations keep true of it: every slot holds an
    [unsigned short], and the write cursor is the number of enqueues so
    far modulo the capacity. *)
Definition queue_inv (s : Input) : Prop :=
  Forall (fun d => 0 <= d < 65536) (s_KeyQueue s) ∧
  s_KeyQueueWriteIndex s = Z.of_nat (length (enqueued s)) mod KEYQUEUE_SIZE.

(** Every hold counter is between 0 and [KEY_HOLD_FRAMES]. *)
Definition hold_inv (s : Input) : Prop :=
  Forall (fun c => 0 <= c <= KEY_HOLD_FRAMES) (keyHold s).

(** A slot as [DG_GetKey] decodes it into its two outputs (lines 242-244). *)
Definition unpack (keyData : Z) : Z * Z :=
  (Z.shiftr keyData 8, to_uchar (Z.land keyData 255)).

(** The state with the read cursor moved to [r]. *)
Definition read_from (r : Z) (s : Input) : Input :=
  {| s_KeyQueue := s_KeyQueue s;
     s_KeyQueueWriteIndex := s_KeyQueueWriteIndex s;
     s_KeyQueueReadIndex := r;
     keyHold := keyHold s;
     enqueued := enqueued s |}.

(** The events the queue has taken in between a state [s] and a later
    state [s']: the slots of [s'] from where the write cursor of [s]
    stood up to the write cursor of [s'], oldest first, each decoded as
    [DG_GetKey] decodes it.  It is read off [s_KeyQueue] and the two
    write cursors alone. *)
Definition stored_since (s s' : Input) : list (Z * Z) :=
  map unpack (pending (read_from (s_KeyQueueWriteIndex s) s')).

(** The offset of the cell behind the text of a 160x100 frame:
    100 lines of 320 characters and a newline. *)
Definition frame_end : nat := Z.to_nat (RESY_default * (2 * RESX_default + 1)).

(** The contents of a recycled block: zero, but for one stale byte [c]
    in cell [frame_end]. *)
Definition stale_block (c : Z) (i : nat) : Z := if Nat.eqb i frame_end then c else 0.

(** * Properties *)

(** ** Arithmetic of the fixed-width conversions *)

Lemma to_uint32_small (x : Z) : 0 <= x < 4294967296 → to_uint32 x = x.
Proof. intros Hx. unfold to_uint32. apply Z.mod_small. exact Hx. Qed.

Lemma land_255_range (x : Z) : 0 <= Z.land x 255 <= 255.
Proof.
  change 255 with (Z.ones 8) at 1 2. rewrite Z.land_ones by lia.
  change (2 ^ 8) with 256. Z.div_mod_to_equations. lia.
Qed.

Lemma shiftl_8_land_byte (p k : Z) : 0 <= k <= 255 → Z.land (Z.shiftl p 8) k = 0.
Proof.
  intros Hk. apply Z.bits_inj'. intros n Hn.
  rewrite Z.land_spec, Z.bits_0.
  destruct (Z.lt_ge_cases n 8) as [Hlt | Hge].
  - rewrite Z.shiftl_spec_low by lia. reflexivity.
  - replace k with (k mod 2 ^ 8) by (apply Z.mod_small; lia).
    rewrite Z.mod_pow2_bits_high by lia. apply andb_false_r.
Qed.

(** Packing an event into a queue slot and unpacking it again. *)
Lemma keyData_round_trip (p k : Z) :
  0 <= p <= 255 → 0 <= k <= 255 →
  let keyData := to_ushort (Z.lor (Z.shiftl p 8) k) in
  Z.shiftr keyData 8 = p ∧ to_uchar (Z.land keyData 255) = k.
Proof.
  intros Hp Hk. cbv zeta.
  rewrite <- Z.add_nocarry_lor by (apply shiftl_8_land_byte; exact Hk).
  rewrite Z.shiftl_mul_pow2 by lia.
  unfold to_ushort, to_uchar.
  change 255 with (Z.ones 8). rewrite Z.land_ones by lia.
  rewrite Z.shiftr_div_pow2 by lia.
  change (2 ^ 8) with 256. change (2 ^ 16) with 65536.
  split; Z.div_mod_to_equations; lia.
Qed.

Lemma to_uchar_range (x : Z) : 0 <= to_uchar x <= 255.
Proof. unfold to_uchar. change (2 ^ 8) with 256. Z.div_mod_to_equations. lia. Qed.

(** ** The ring buffer *)

Lemma cursor_advance_range (i : Z) : 0 <= to_uint32 (i + 1) mod KEYQUEUE_SIZE < KEYQUEUE_SIZE.
Proof. unfold KEYQUEUE_SIZE. Z.div_mod_to_equations. lia. Qed.

Lemma cursor_advance (i : Z) :
  0 <= i < KEYQUEUE_SIZE → to_uint32 (i + 1) mod KEYQUEUE_SIZE = (i + 1) mod KEYQUEUE_SIZE.
Proof. unfold KEYQUEUE_SIZE. intros Hi. rewrite to_uint32_small by lia. reflexivity. Qed.

Lemma addKeyToQueue_well_sized p k s : well_sized s → well_sized (addKeyToQueue p k s).
Proof. intros [Hq Hh]. split; simpl; [rewrite length_insert|]; assumption. Qed.

Lemma addKeyToQueue_cursors p k s : cursors_in_range s → cursors_in_range (addKeyToQueue p k s).
Proof. intros [Hw Hr]. split; simpl; [apply cursor_advance_range | exact Hr]. Qed.

Lemma length_pending s :
  length (pending s) =
  Z.to_nat ((s_KeyQueueWriteIndex s - s_KeyQueueReadIndex s) mod KEYQUEUE_SIZE).
Proof. unfold pending. rewrite length_map, length_seq. reflexivity. Qed.

Lemma pending_nil_iff s :
  cursors_in_range s →
  pending s = [] ↔ s_KeyQueueReadIndex s = s_KeyQueueWriteIndex s.
Proof.
  intros [Hw Hr]. rewrite <- length_zero_iff_nil, length_pending.
  unfold KEYQUEUE_SIZE in *. split; intros H.
  - Z.div_mod_to_equations. lia.
  - rewrite H, Z.sub_diag. reflexivity.
Qed.

Lemma pending_enqueue p k s :
  well_sized s → cursors_in_range s → (length (pending s) < 15)%nat →
  pending (addKeyToQueue p k s) =
  pending s ++ [to_ushort (Z.lor (Z.shiftl p 8) k)].
Proof.
  intros [Hq _] [Hw Hr] Hlen. rewrite length_pending in Hlen.
  unfold pending, addKeyToQueue; simpl.
  rewrite cursor_advance by exact Hw.
  set (w := s_KeyQueueWriteIndex s) in *. set (r := s_KeyQueueReadIndex s) in *.
  unfold KEYQUEUE_SIZE in *.
  replace (Z.to_nat (((w + 1) mod 16 - r) mod 16))
    with (S (Z.to_nat ((w - r) mod 16))) by (Z.div_mod_to_equations; lia).
  rewrite seq_S, map_app. simpl. f_equal.
  - apply map_ext_in. intros i Hi. apply in_seq in Hi. unfold slot.
    rewrite list_lookup_insert_ne; [reflexivity|].
    Z.div_mod_to_equations. lia.
  - f_equal. unfold slot.
    replace ((r + Z.of_nat (Z.to_nat ((w - r) mod 16))) mod 16) with w
      by (Z.div_mod_to_equations; lia).
    rewrite list_lookup_insert_eq by (rewrite Hq; simpl; lia). reflexivity.
Qed.

Lemma dequeue_pending p0 k0 d l s :
  cursors_in_range s → pending s = d :: l →
  ∃ s', DG_GetKey p0 k0 s = (1, (Z.shiftr d 8, to_uchar (Z.land d 255)), s') ∧
        pending s' = l ∧ cursors_in_range s' ∧ (well_sized s → well_sized s').
Proof.
  intros [Hw Hr] Hp.
  assert (Hne : s_KeyQueueReadIndex s ≠ s_KeyQueueWriteIndex s).
  { intros Heq. apply (pending_nil_iff s) in Heq; [congruence | by split]. }
  unfold DG_GetKey. apply Z.eqb_neq in Hne. rewrite Hne. apply Z.eqb_neq in Hne.
  eexists. split; [|split; [|split]].
  - revert Hp. unfold pending.
    set (w := s_KeyQueueWriteIndex s) in *. set (r := s_KeyQueueReadIndex s) in *.
    unfold KEYQUEUE_SIZE in *.
    destruct (Z.to_nat ((w - r) mod 16)) as [|n] eqn:En; [discriminate|].
    simpl. intros [= Hd _]. rewrite <- Hd. unfold slot.
    replace ((r + Z.of_nat 0) mod 16) with r by (Z.div_mod_to_equations; lia).
    reflexivity.
  - revert Hp. unfold pending; simpl.
    rewrite cursor_advance by exact Hr.
    set (w := s_KeyQueueWriteIndex s) in *. set (r := s_KeyQueueReadIndex s) in *.
    unfold KEYQUEUE_SIZE in *.
    destruct (Z.to_nat ((w - r) mod 16)) as [|n] eqn:En; [discriminate|].
    replace (Z.to_nat ((w - (r + 1) mod 16) mod 16)) with n
      by (Z.div_mod_to_equations; lia).
    simpl. intros [= _ Hl]. rewrite <- Hl, <- seq_shift, map_map.
    apply map_ext_in. intros i Hi. apply in_seq in Hi. f_equal.
    Z.div_mod_to_equations; lia.
  - split; simpl; [exact Hw | apply cursor_advance_range].
  - intros Hs. exact Hs.
Qed.

Lemma pending_enqueue_all evs : ∀ s,
  well_sized s → cursors_in_range s →
  (length (pending s) + length evs <= 15)%nat →
  pending (enqueue_all evs s) =
    pending s ++ map (fun e => to_ushort (Z.lor (Z.shiftl e.1 8) e.2)) evs ∧
  cursors_in_range (enqueue_all evs s).
Proof.
  induction evs as [|e evs IH]; intros s Hs Hc Hlen.
  - simpl. rewrite app_nil_r. split; [reflexivity | exact Hc].
  - change (enqueue_all (e :: evs) s) with (enqueue_all evs (addKeyToQueue e.1 e.2 s)).
    simpl in Hlen.
    destruct (IH (addKeyToQueue e.1 e.2 s)) as [IH1 IH2].
    + by apply addKeyToQueue_well_sized.
    + by apply addKeyToQueue_cursors.
    + rewrite pending_enqueue by (try done; lia). rewrite length_app; simpl. lia.
    + split; [|exact IH2]. rewrite IH1.
      rewrite pending_enqueue by (try done; lia). rewrite <- app_assoc. reflexivity.
Qed.

Lemma dequeue_n_pending l : ∀ s,
  cursors_in_range s → pending s = l →
  let res := dequeue_n (length l) s in
  res.1 = map (fun d => (1, (Z.shiftr d 8, to_uchar (Z.land d 255)))) l ∧
  pending res.2 = [] ∧ cursors_in_range res.2.
Proof.
  induction l as [|d l IH]; intros s Hc Hp; simpl.
  - done.
  - destruct (dequeue_pending 0 0 d l s Hc Hp) as (s' & Hget & Hp' & Hc' & _).
    rewrite Hget. destruct (IH s' Hc' Hp') as (IH1 & IH2 & IH3).
    destruct (dequeue_n (length l) s') as [rest s2]; simpl in *.
    rewrite IH1. done.
Qed.

(** C1 (as amended).  From any empty queue (equal cursors, wherever they
    stand), enqueueing fewer events than the queue has slots and then
    calling [DG_GetKey] as many times returns 1 with the same
    [(pressed, key)] pairs in the same order, and every further call
    returns 0 and changes nothing. *)
Theorem queue_round_trip (evs : list (Z * Z)) (s : Input) :
  well_sized s → cursors_in_range s →
  s_KeyQueueReadIndex s = s_KeyQueueWriteIndex s →
  Z.of_nat (length evs) < KEYQUEUE_SIZE →
  Forall packable evs →
  let res := dequeue_n (length evs) (enqueue_all evs s) in
  res.1 = map (fun e => (1, e)) evs ∧
  ∀ pressed doomKey, DG_GetKey pressed doomKey res.2 = (0, (pressed, doomKey), res.2).
Proof.
  intros Hs Hc Hempty Hn Hev.
  assert (Hnil : pending s = []) by (by apply pending_nil_iff).
  destruct (pending_enqueue_all evs s Hs Hc) as [Hp Hc'].
  { rewrite Hnil. simpl. unfold KEYQUEUE_SIZE in Hn. lia. }
  rewrite Hnil in Hp; simpl in Hp.
  pose proof (dequeue_n_pending _ _ Hc' Hp) as Hd.
  rewrite length_map in Hd. cbv zeta in *.
  destruct Hd as (Hd1 & Hd2 & Hd3). split.
  - rewrite Hd1, map_map. apply map_ext_Forall. 
    eapply Forall_impl; [exact Hev|]. intros [p k] [Hp1 Hk1]; simpl in *.
    destruct (keyData_round_trip p k Hp1 Hk1) as [-> ->]. reflexivity.
  - intros p k. apply pending_nil_iff in Hd2; [|exact Hd3].
    unfold DG_GetKey. rewrite Hd2, Z.eqb_refl. reflexivity.
Qed.

(** C1 as stated fails at the capacity: sixteen enqueues bring the write
    cursor back onto the read cursor, and every one of the sixteen
    dequeues that follow reports an empty queue. *)
Lemma queue_round_trip_fails_when_full :
  Z.of_nat (length sixteen_presses) <= KEYQUEUE_SIZE ∧
  Forall packable sixteen_presses ∧
  (dequeue_n (length sixteen_presses) (enqueue_all sixteen_presses initial_input)).1
    = replicate 16 (0, (0, 0)) ∧
  (dequeue_n (length sixteen_presses) (enqueue_all sixteen_presses initial_input)).1
    ≠ map (fun e => (1, e)) sixteen_presses.
Proof.
  split; [vm_compute; discriminate|]. split.
  - apply Forall_replicate. unfold packable. simpl. lia.
  - split; [reflexivity|]. intros H. vm_compute in H. discriminate.
Qed.

(** The round trip across the wrap-around: the cursors start at 14, the
    three events land in slots 14, 15 and 0. *)
Lemma queue_round_trip_witness :
  let evs := [(1, 32); (0, 32); (1, 163)] in
  let s := enqueue_all (replicate 14 (1, 13)) initial_input in
  let s0 := (dequeue_n 14 s).2 in
  let res := dequeue_n (length evs) (enqueue_all evs s0) in
  res.1 = map (fun e => (1, e)) evs ∧
  ∀ pressed doomKey, DG_GetKey pressed doomKey res.2 = (0, (pressed, doomKey), res.2).
Proof.
  intros evs s s0.
  apply (queue_round_trip evs s0).
  - split; reflexivity.
  - unfold cursors_in_range. vm_compute. repeat split; discriminate.
  - reflexivity.
  - vm_compute. reflexivity.
  - repeat (apply Forall_cons_2; [unfold packable; simpl; lia|]). apply Forall_nil_2.
Defined.

(** C10.  With equal cursors [DG_GetKey] returns 0 and leaves the queue
    state and the caller's two output locations as they were. *)
Theorem DG_GetKey_empty_atomic (pressed doomKey : Z) (s : Input) :
  s_KeyQueueReadIndex s = s_KeyQueueWriteIndex s →
  DG_GetKey pressed doomKey s = (0, (pressed, doomKey), s).
Proof. intros Heq. unfold DG_GetKey. rewrite Heq, Z.eqb_refl. reflexivity. Qed.

Lemma DG_GetKey_empty_atomic_witness :
  DG_GetKey 7 9 initial_input = (0, (7, 9), initial_input).
Proof. apply (DG_GetKey_empty_atomic 7 9 initial_input). reflexivity. Defined.

Lemma DG_GetKey_well_sized p k s : well_sized s → well_sized (DG_GetKey p k s).2.
Proof. unfold DG_GetKey. by destruct (_ =? _). Qed.

Lemma DG_GetKey_cursors p k s : cursors_in_range s → cursors_in_range (DG_GetKey p k s).2.
Proof.
  unfold DG_GetKey. intros [Hw Hr]. destruct (_ =? _); [done|].
  split; simpl; [exact Hw | apply cursor_advance_range].
Qed.

Lemma initial_input_well_sized : well_sized initial_input.
Proof. done. Qed.

Lemma initial_input_cursors : cursors_in_range initial_input.
Proof. unfold cursors_in_range, KEYQUEUE_SIZE. simpl. lia. Qed.

(** *** The events stored in between two states *)

Lemma read_from_enqueue_all r evs : ∀ s,
  read_from r (enqueue_all evs s) = enqueue_all evs (read_from r s).
Proof.
  induction evs as [|e evs IH]; intros s; [reflexivity|].
  change (enqueue_all (e :: evs) s) with (enqueue_all evs (addKeyToQueue e.1 e.2 s)).
  rewrite IH. reflexivity.
Qed.

Lemma unpack_keyData (e : Z * Z) : packable e → unpack (keyData e) = e.
Proof.
  destruct e as [p k]. intros [Hp Hk]. simpl in Hp, Hk.
  destruct (keyData_round_trip p k Hp Hk) as [H1 H2]. cbv zeta in H1, H2.
  unfold unpack, keyData. cbn [fst snd]. by rewrite H1, H2.
Qed.

Lemma stored_since_enqueue_all evs s s' :
  well_sized s' → 0 <= s_KeyQueueWriteIndex s' < KEYQUEUE_SIZE →
  s_KeyQueueWriteIndex s' = s_KeyQueueWriteIndex s →
  (length evs <= 15)%nat → Forall packable evs →
  stored_since s (enqueue_all evs s') = evs.
Proof.
  intros Hs Hw Heq Hlen Hpack. unfold stored_since. rewrite <- Heq.
  rewrite read_from_enqueue_all.
  set (s0 := read_from (s_KeyQueueWriteIndex s') s').
  assert (Hc0 : cursors_in_range s0) by (split; exact Hw).
  assert (Hp0 : pending s0 = []) by (by apply pending_nil_iff).
  destruct (pending_enqueue_all evs s0) as [-> _].
  - exact Hs.
  - exact Hc0.
  - rewrite Hp0. simpl. lia.
  - rewrite Hp0. simpl. rewrite map_map.
    induction Hpack as [|e l He _ IH]; [reflexivity|].
    simpl in *. rewrite IH by lia. f_equal. by apply unpack_keyData.
Qed.

(** A reader whose cursor stands where the write cursor of [s] stood
    is handed just these events by [DG_GetKey]. *)
Lemma stored_since_polled s s' :
  cursors_in_range s → 0 <= s_KeyQueueWriteIndex s' < KEYQUEUE_SIZE →
  let reader := read_from (s_KeyQueueWriteIndex s) s' in
  (dequeue_n (length (stored_since s s')) reader).1 =
  map (fun e => (1, e)) (stored_since s s').
Proof.
  intros [Hw _] Hw' reader. unfold stored_since. fold reader.
  rewrite length_map, map_map.
  assert (Hc : cursors_in_range reader) by (split; [exact Hw' | exact Hw]).
  by destruct (dequeue_n_pending (pending reader) reader Hc eq_refl) as [-> _].
Qed.

(** ** The hold table *)

Lemma enqueued_enqueue_all evs : ∀ s, enqueued (enqueue_all evs s) = enqueued s ++ evs.
Proof.
  induction evs as [|[p k] evs IH]; intros s.
  - simpl. by rewrite app_nil_r.
  - change (enqueue_all ((p, k) :: evs) s) with (enqueue_all evs (addKeyToQueue p k s)).
    rewrite IH. simpl. by rewrite <- app_assoc.
Qed.

Lemma enqueue_all_invariants evs : ∀ s,
  (well_sized s → well_sized (enqueue_all evs s)) ∧
  (cursors_in_range s → cursors_in_range (enqueue_all evs s)) ∧
  s_KeyQueueReadIndex (enqueue_all evs s) = s_KeyQueueReadIndex s ∧
  keyHold (enqueue_all evs s) = keyHold s.
Proof.
  induction evs as [|e evs IH]; intros s; [done|].
  change (enqueue_all (e :: evs) s) with (enqueue_all evs (addKeyToQueue e.1 e.2 s)).
  destruct (IH (addKeyToQueue e.1 e.2 s)) as (IH1 & IH2 & IH3 & IH4).
  split; [|split; [|split]].
  - intros H. apply IH1. by apply addKeyToQueue_well_sized.
  - intros H. apply IH2. by apply addKeyToQueue_cursors.
  - by rewrite IH3.
  - by rewrite IH4.
Qed.

Lemma due_events (keys holds : list Z) :
  Forall (fun e => e.1 = 0 ∧ e.2 ∈ to_uchar <$> keys) (due keys holds) ∧
  length (due keys holds) = length (filter (fun c => c = 1) (take (length keys) holds)).
Proof.
  unfold due. revert holds. induction keys as [|k keys IH]; intros [|c holds];
    try (split; [apply Forall_nil_2 | done]).
  destruct (IH holds) as [IH1 IH2]. cbn [zip zip_with flat_map fst snd length take].
  split.
  - apply Forall_app. split.
    + destruct (c =? 1); [|apply Forall_nil_2].
      apply Forall_cons_2; [|apply Forall_nil_2]. split; [done|]. simpl. left.
    + eapply Forall_impl; [exact IH1|]. intros e [He1 He2]. split; [done|].
      simpl. by right.
  - rewrite length_app. fold (zip keys holds). rewrite IH2.
    destruct (c =? 1) eqn:E.
    + rewrite filter_cons_True by lia. reflexivity.
    + rewrite filter_cons_False by lia. reflexivity.
Qed.

Section HoldTable.
Context {dk : doomkeys}.

Lemma length_keyHoldKeys : length keyHoldKeys = KEY_HOLD_KEYS.
Proof. reflexivity. Qed.

Lemma decrementKeyCtrs_from (rest : list Z) : ∀ (done kdone krest : list Z) (s : Input),
  keyHold s = done ++ rest →
  keyHoldKeys = kdone ++ krest →
  length kdone = length done →
  length krest = length rest →
  foldl decrementKeyCtr s (seq (length done) (length rest)) =
  enqueue_all (due krest rest) (set_keyHold (done ++ (aged <$> rest)) s).
Proof.
  induction rest as [|c rest IH]; intros done kdone krest s Hh Hk Hld Hlr.
  - simpl. rewrite app_nil_r, <- (app_nil_r done), <- Hh.
    destruct krest; [|done]. by destruct s.
  - destruct krest as [|k krest]; [done|].
    simpl in Hlr. injection Hlr as Hlr.
    assert (Hc : keyHold s !! length done = Some c) by (rewrite Hh; apply list_lookup_middle; done).
    assert (Hkk : keyHoldKeys !! length done = Some k) by (rewrite Hk; apply list_lookup_middle; done).
    simpl. unfold decrementKeyCtr at 2. rewrite Hc, Hkk. simpl.
    destruct (0 <? c) eqn:Hpos.
    + rewrite list_lookup_insert_eq
        by (rewrite Hh, length_app; simpl; lia).
      simpl.
      assert (Hins : <[length done := c - 1]> (keyHold s) = (done ++ [c - 1]) ++ rest).
      { rewrite Hh, <- app_assoc. simpl.
        rewrite insert_app_r_alt by lia. by rewrite Nat.sub_diag. }
      rewrite Hins.
      replace (S (length done)) with (length (done ++ [c - 1]))
        by (rewrite length_app; simpl; lia).
      unfold aged at 1, due. rewrite Hpos. simpl. fold (due krest rest).
      destruct (c - 1 =? 0) eqn:Hz.
      * rewrite (IH (done ++ [c - 1]) (kdone ++ [k]) krest);
          [| done | by rewrite Hk, <- app_assoc | rewrite !length_app; simpl; lia | done].
        replace (c =? 1) with true by lia. rewrite <- app_assoc. reflexivity.
      * rewrite (IH (done ++ [c - 1]) (kdone ++ [k]) krest);
          [| done | by rewrite Hk, <- app_assoc | rewrite !length_app; simpl; lia | done].
        replace (c =? 1) with false by lia. rewrite <- app_assoc. reflexivity.
    + replace (S (length done)) with (length (done ++ [c]))
        by (rewrite length_app; simpl; lia).
      rewrite (IH (done ++ [c]) (kdone ++ [k]) krest);
          [| by rewrite Hh, <- app_assoc | by rewrite Hk, <- app_assoc | rewrite !length_app; simpl; lia | done].
      unfold aged at 2, due. rewrite Hpos. simpl. fold (due krest rest).
      replace (c =? 1) with false by lia. rewrite <- app_assoc. reflexivity.
Qed.

Lemma decrementKeyCtrs_spec (s : Input) :
  well_sized s →
  decrementKeyCtrs s =
  enqueue_all (due keyHoldKeys (keyHold s)) (set_keyHold (aged <$> keyHold s) s).
Proof.
  intros [_ Hh]. unfold decrementKeyCtrs. rewrite <- Hh.
  apply (decrementKeyCtrs_from (keyHold s) [] [] keyHoldKeys s); done.
Qed.

Lemma pressKey_loop_frame js key : ∀ s,
  ∃ h, pressKey_loop js key s = set_keyHold h s ∧ length h = length (keyHold s).
Proof.
  induction js as [|j js IH]; intros s; simpl.
  - exists (keyHold s). by destruct s.
  - destruct (default 0 (keyHoldKeys !! j) =? key); [|apply IH].
    eexists. split; [reflexivity|]. apply length_insert.
Qed.

Lemma pressKey_loop_hit key s n : ∀ a,
  (∃ j, (a <= j < a + n)%nat ∧ keyHoldKeys !! j = Some key) →
  ∃ j, keyHoldKeys !! j = Some key ∧
       pressKey_loop (seq a n) key s =
       set_keyHold (<[j := KEY_HOLD_FRAMES]> (keyHold s)) s.
Proof.
  induction n as [|n IH]; intros a (j & Hj & Hkey); [lia|]. simpl.
  destruct (keyHoldKeys !! a) as [k|] eqn:Ha.
  - simpl. destruct (k =? key) eqn:Hk.
    + apply Z.eqb_eq in Hk. subst k. by exists a.
    + apply IH. exists j. split; [|done].
      destruct (decide (j = a)) as [->|]; [|lia].
      rewrite Ha in Hkey. injection Hkey as ->. rewrite Z.eqb_refl in Hk. done.
  - apply lookup_ge_None in Ha. apply lookup_lt_Some in Hkey. lia.
Qed.

Lemma pressKey_spec key s :
  key ∈ keyHoldKeys →
  ∃ j, keyHoldKeys !! j = Some key ∧
       pressKey key s =
       set_keyHold (<[j := KEY_HOLD_FRAMES]> (keyHold s))
                   (addKeyToQueue 1 (to_uchar key) s).
Proof.
  intros Hin. apply list_elem_of_lookup in Hin as [j Hj].
  unfold pressKey.
  apply (pressKey_loop_hit key (addKeyToQueue 1 (to_uchar key) s)). exists j. split; [|done].
  apply lookup_lt_Some in Hj. rewrite length_keyHoldKeys in Hj. lia.
Qed.

Lemma to_uchar_keyHoldKeys_inj k1 k2 :
  k1 ∈ keyHoldKeys → k2 ∈ keyHoldKeys → to_uchar k1 = to_uchar k2 → k1 = k2.
Proof.
  unfold keyHoldKeys. intros H1 H2.
  apply list_elem_of_fmap in H1 as (x1 & -> & _).
  apply list_elem_of_fmap in H2 as (x2 & -> & _).
  unfold to_uchar, to_char. change (2 ^ 8) with 256.
  Z.div_mod_to_equations. lia.
Qed.

Lemma release_count_app key l1 l2 :
  release_count key (l1 ++ l2) = (release_count key l1 + release_count key l2)%nat.
Proof. unfold release_count. by rewrite filter_app, length_app. Qed.

Lemma release_count_due_other key (l : list (Z * Z)) :
  key ∈ keyHoldKeys →
  Forall (fun kc => kc.1 ∈ keyHoldKeys ∧ (kc.1 = key → kc.2 = 0)) l →
  release_count key
    (flat_map (fun kc => if kc.2 =? 1 then [(0, to_uchar kc.1)] else []) l) = 0%nat.
Proof.
  intros Hkey. induction 1 as [|[k c] l [Hin Hz] _ IH]; [done|].
  simpl in *. rewrite release_count_app, IH, Nat.add_0_r.
  destruct (c =? 1) eqn:Hc; [|done].
  unfold release_count. rewrite filter_cons_False; [done|].
  intros [= Heq]. apply to_uchar_keyHoldKeys_inj in Heq; [|done..]. lia.
Qed.

Lemma release_count_due j key holds c :
  length holds = KEY_HOLD_KEYS →
  sole_timer j key holds c →
  release_count key (due keyHoldKeys holds) = if c =? 1 then 1%nat else 0%nat.
Proof.
  intros Hlen (Hk & Hc & Hothers).
  assert (Hkey : key ∈ keyHoldKeys) by (apply list_elem_of_lookup; eauto).
  assert (Hz : zip keyHoldKeys holds !! j = Some (key, c)).
  { apply lookup_zip_with_Some. eauto. }
  unfold due. rewrite <- (take_drop_middle _ _ _ Hz), flat_map_app.
  cbn [flat_map]. rewrite !release_count_app.
  rewrite !release_count_due_other; try done.
  - rewrite Nat.add_0_r. cbn [fst snd plus]. destruct (c =? 1); [|done].
    unfold release_count. by rewrite filter_cons_True.
  - apply Forall_lookup. intros i [k' c'] Hi. rewrite lookup_drop in Hi.
    apply lookup_zip_with_Some in Hi as (? & ? & [= <- <-] & Hk' & Hc').
    simpl. split; [apply list_elem_of_lookup; eauto|].
    intros ->. apply Hothers in Hk'; [|lia]. congruence.
  - apply Forall_lookup. intros i [k' c'] Hi.
    apply lookup_take_Some in Hi as [Hi Hlt].
    apply lookup_zip_with_Some in Hi as (? & ? & [= <- <-] & Hk' & Hc').
    simpl. split; [apply list_elem_of_lookup; eauto|].
    intros ->. apply Hothers in Hk'; [|lia]. congruence.
Qed.

Lemma keyHold_decrementKeyCtrs s :
  well_sized s → keyHold (decrementKeyCtrs s) = aged <$> keyHold s.
Proof.
  intros Hs. rewrite decrementKeyCtrs_spec by done.
  by destruct (enqueue_all_invariants (due keyHoldKeys (keyHold s))
                 (set_keyHold (aged <$> keyHold s) s)) as (_ & _ & _ & ->).
Qed.

Lemma decrementKeyCtrs_well_sized s : well_sized s → well_sized (decrementKeyCtrs s).
Proof.
  intros Hs. rewrite decrementKeyCtrs_spec by done.
  apply enqueue_all_invariants. destruct Hs as [Hq Hh].
  split; simpl; [done | by rewrite length_fmap].
Qed.

Lemma decrementKeyCtrs_cursors s :
  well_sized s → cursors_in_range s → cursors_in_range (decrementKeyCtrs s).
Proof.
  intros Hs Hc. rewrite decrementKeyCtrs_spec by done.
  by apply enqueue_all_invariants.
Qed.

Lemma pressKey_well_sized key s : well_sized s → well_sized (pressKey key s).
Proof.
  intros [Hq Hh]. unfold pressKey.
  destruct (pressKey_loop_frame (seq 0 KEY_HOLD_KEYS) key
              (addKeyToQueue 1 (to_uchar key) s)) as (h & -> & Hlen).
  split; simpl in *; [by rewrite length_insert | congruence].
Qed.

Lemma pressKey_cursors key s : cursors_in_range s → cursors_in_range (pressKey key s).
Proof.
  intros Hc. unfold pressKey.
  destruct (pressKey_loop_frame (seq 0 KEY_HOLD_KEYS) key
              (addKeyToQueue 1 (to_uchar key) s)) as (h & -> & Hlen).
  by apply (addKeyToQueue_cursors 1 (to_uchar key)) in Hc.
Qed.

(** One tick, seen from the only running timer of [key]. *)
Lemma tick_sole_timer j key c s :
  well_sized s → sole_timer j key (keyHold s) c →
  sole_timer j key (keyHold (decrementKeyCtrs s)) (aged c) ∧
  release_count key (enqueued (decrementKeyCtrs s)) =
    (release_count key (enqueued s) + if (c =? 1)%Z then 1 else 0)%nat.
Proof.
  intros Hs Ht. split.
  - rewrite keyHold_decrementKeyCtrs by done.
    destruct Ht as (Hk & Hc & Ho). split; [done|]. split.
    + by rewrite list_lookup_fmap, Hc.
    + intros i Hi Hki. by rewrite list_lookup_fmap, (Ho i Hi Hki).
  - rewrite decrementKeyCtrs_spec by done.
    rewrite enqueued_enqueue_all, release_count_app. simpl. f_equal.
    apply (release_count_due j); [apply Hs | done].
Qed.

Lemma ticks_S n s : ticks (S n) s = decrementKeyCtrs (ticks n s).
Proof. reflexivity. Qed.

Lemma ticks_sole_timer j key c s n :
  well_sized s → sole_timer j key (keyHold s) c → 0 <= c →
  well_sized (ticks n s) ∧
  sole_timer j key (keyHold (ticks n s)) (Z.max 0 (c - Z.of_nat n)) ∧
  release_count key (enqueued (ticks n s)) =
    (release_count key (enqueued s) +
     if bool_decide (1 <= c <= Z.of_nat n)%Z then 1 else 0)%nat.
Proof.
  intros Hs Ht Hc. induction n as [|n (IHs & IHt & IHc)].
  - simpl. split; [done|]. split.
    + by replace (Z.max 0 (c - Z.of_nat 0)) with c by lia.
    + rewrite bool_decide_eq_false_2 by lia. lia.
  - rewrite ticks_S.
    destruct (tick_sole_timer _ _ _ _ IHs IHt) as [Ht' Hc'].
    split; [by apply decrementKeyCtrs_well_sized|]. split.
    + replace (Z.max 0 (c - Z.of_nat (S n))) with (aged (Z.max 0 (c - Z.of_nat n))); [done|].
      unfold aged. destruct (0 <? Z.max 0 (c - Z.of_nat n)) eqn:E; lia.
    + rewrite Hc', IHc.
      destruct (Z.max 0 (c - Z.of_nat n) =? 1) eqn:E;
        repeat case_bool_decide; lia.
Qed.

Lemma pressKey_sole_timer key s :
  well_sized s → key ∈ keyHoldKeys →
  (∀ i j, keyHoldKeys !! i = Some key → keyHoldKeys !! j = Some key →
          i = j ∨ (keyHold s !! i = Some 0 ∧ keyHold s !! j = Some 0)) →
  ∃ j, sole_timer j key (keyHold (pressKey key s)) KEY_HOLD_FRAMES ∧
       enqueued (pressKey key s) = enqueued s ++ [(1, to_uchar key)].
Proof.
  intros [Hq Hh] Hin Hsole.
  destruct (pressKey_spec key s Hin) as (j & Hj & ->).
  exists j. split; [|done]. split; [done|]. simpl. split.
  - apply list_lookup_insert_eq. apply lookup_lt_Some in Hj.
    rewrite length_keyHoldKeys in Hj. lia.
  - intros i Hij Hi. rewrite list_lookup_insert_ne by done.
    destruct (Hsole i j Hi Hj) as [?|[? _]]; done.
Qed.

Lemma release_count_press key k l :
  release_count key (l ++ [(1, k)]) = release_count key l.
Proof.
  rewrite release_count_app. unfold release_count at 2.
  rewrite filter_cons_False by done. simpl. lia.
Qed.

Lemma due_packable (holds : list Z) :
  Forall packable (due keyHoldKeys holds) ∧ (length (due keyHoldKeys holds) <= 7)%nat.
Proof.
  destruct (due_events keyHoldKeys holds) as [Hev Hlen]. split.
  - eapply Forall_impl; [exact Hev|]. intros [p k] [Hp Hk]. cbn [fst snd] in *. subst p.
    apply list_elem_of_fmap in Hk as (x & -> & _).
    pose proof (to_uchar_range x). split; simpl; lia.
  - rewrite Hlen. etrans; [apply length_filter|].
    rewrite length_take, length_keyHoldKeys. unfold KEY_HOLD_KEYS. lia.
Qed.

Lemma stored_since_tick s :
  well_sized s → cursors_in_range s →
  stored_since s (decrementKeyCtrs s) = due keyHoldKeys (keyHold s).
Proof.
  intros Hs [Hw _]. rewrite decrementKeyCtrs_spec by exact Hs.
  destruct (due_packable (keyHold s)) as [Hpack Hlen].
  apply stored_since_enqueue_all; try done; [|lia].
  destruct Hs as [Hq Hh]. split; [exact Hq|]. simpl. by rewrite length_fmap.
Qed.

Lemma stored_since_pressKey key s :
  well_sized s → cursors_in_range s →
  stored_since s (pressKey key s) = [(1, to_uchar key)].
Proof.
  intros Hs [Hw _]. unfold pressKey.
  destruct (pressKey_loop_frame (seq 0 KEY_HOLD_KEYS) key
              (addKeyToQueue 1 (to_uchar key) s)) as (h & -> & _).
  change (stored_since s (set_keyHold h (addKeyToQueue 1 (to_uchar key) s)))
    with (stored_since s (enqueue_all [(1, to_uchar key)] s)).
  apply stored_since_enqueue_all; try done; [simpl; lia|].
  apply Forall_cons_2; [|apply Forall_nil_2].
  pose proof (to_uchar_range key). split; simpl; lia.
Qed.

Lemma ticks_cursors n s :
  well_sized s → cursors_in_range s →
  well_sized (ticks n s) ∧ cursors_in_range (ticks n s).
Proof.
  intros Hs Hc. induction n as [|n [IHs IHc]]; [done|].
  rewrite ticks_S. split.
  - by apply decrementKeyCtrs_well_sized.
  - by apply decrementKeyCtrs_cursors.
Qed.

(** Tick number [n + 1] after the only timer of [key] was found at
    [c]: the queue takes a release of [key] when [n + 1 = c], and none
    otherwise. *)
Lemma stored_since_ticks j key c s n :
  well_sized s → cursors_in_range s →
  sole_timer j key (keyHold s) c → 0 <= c →
  release_count key (stored_since (ticks n s) (ticks (S n) s)) =
    if Z.of_nat (S n) =? c then 1%nat else 0%nat.
Proof.
  intros Hs Hc Ht Hpos.
  destruct (ticks_cursors n s Hs Hc) as [Hsn Hcn].
  destruct (ticks_sole_timer j key c s n Hs Ht Hpos) as (_ & Htn & _).
  rewrite ticks_S, stored_since_tick by done.
  rewrite (release_count_due j key _ _ (proj2 Hsn) Htn).
  destruct (Z.eqb_spec (Z.max 0 (c - Z.of_nat n)) 1);
    destruct (Z.eqb_spec (Z.of_nat (S n)) c); lia.
Qed.

(** C6.  [key] is in the hold table and every slot of [key] stands at
    0.  [pressKey] stores the press in the queue, in the slot under the
    write cursor; none of the first [KEY_HOLD_FRAMES - 1] ticks stores
    a release of [key]; the tick number [KEY_HOLD_FRAMES] stores exactly
    one.  The slots are those of [s_KeyQueue] between the write cursors,
    decoded as [DG_GetKey] decodes them.  The history of the calls of
    [addKeyToQueue] agrees: the press, and one release of [key] more
    after the last tick, none more before it. *)
Theorem hold_release_after_KEY_HOLD_FRAMES (key : Z) (s : Input) :
  well_sized s → cursors_in_range s → key ∈ keyHoldKeys →
  (∀ i, keyHoldKeys !! i = Some key → keyHold s !! i = Some 0) →
  let s1 := pressKey key s in
  let last := Z.to_nat KEY_HOLD_FRAMES in
  stored_since s s1 = [(1, to_uchar key)] ∧
  (∀ n, (S n < last)%nat →
        release_count key (stored_since (ticks n s1) (ticks (S n) s1)) = 0%nat) ∧
  release_count key
    (stored_since (ticks (last - 1) s1) (ticks last s1)) = 1%nat ∧
  enqueued s1 = enqueued s ++ [(1, to_uchar key)] ∧
  (∀ n, (n < last)%nat →
        release_count key (enqueued (ticks n s1)) = release_count key (enqueued s)) ∧
  release_count key (enqueued (ticks last s1)) = S (release_count key (enqueued s)).
Proof.
  intros Hs Hc Hin Hzero s1 last.
  destruct (pressKey_sole_timer key s Hs Hin) as (j & Ht & Htr).
  { intros i j Hi Hj. right. eauto. }
  fold s1 in Ht, Htr.
  assert (Hs1 : well_sized s1) by (by apply pressKey_well_sized).
  assert (Hc1 : cursors_in_range s1) by (by apply pressKey_cursors).
  split_and!.
  - by apply stored_since_pressKey.
  - intros n Hn.
    rewrite (stored_since_ticks j key KEY_HOLD_FRAMES) by done.
    unfold last, KEY_HOLD_FRAMES in *.
    destruct (Z.eqb_spec (Z.of_nat (S n)) 2); [lia | reflexivity].
  - change (ticks last s1) with (ticks (S (last - 1)) s1).
    rewrite (stored_since_ticks j key KEY_HOLD_FRAMES) by done.
    reflexivity.
  - exact Htr.
  - intros n Hn.
    destruct (ticks_sole_timer j key _ s1 n Hs1 Ht) as (_ & _ & ->); [done|].
    rewrite Htr, release_count_press.
    unfold last, KEY_HOLD_FRAMES in *. rewrite bool_decide_eq_false_2 by lia. lia.
  - destruct (ticks_sole_timer j key _ s1 last Hs1 Ht)
      as (_ & _ & ->); [done|].
    rewrite Htr, release_count_press.
    unfold last, KEY_HOLD_FRAMES in *. rewrite bool_decide_eq_true_2 by lia. lia.
Qed.

(** C7.  The keys of the hold table being distinct: press, tick
    [KEY_HOLD_FRAMES - 1] times, press again.  No tick between the two
    presses stores a release of [key] in the queue; the second press
    stores a press; none of the next [KEY_HOLD_FRAMES - 1] ticks stores
    a release of [key], and the tick after those stores exactly one.
    The history of the calls of [addKeyToQueue] agrees. *)
Theorem repress_restarts_hold_timer (key : Z) (s : Input) :
  well_sized s → cursors_in_range s → NoDup keyHoldKeys → key ∈ keyHoldKeys →
  let n1 := (Z.to_nat KEY_HOLD_FRAMES - 1)%nat in
  let s1 := pressKey key s in
  let s2 := ticks n1 s1 in
  let s3 := pressKey key s2 in
  (∀ n, (n < n1)%nat →
        release_count key (stored_since (ticks n s1) (ticks (S n) s1)) = 0%nat) ∧
  stored_since s2 s3 = [(1, to_uchar key)] ∧
  (∀ n, (n < n1)%nat →
        release_count key (stored_since (ticks n s3) (ticks (S n) s3)) = 0%nat) ∧
  release_count key
    (stored_since (ticks n1 s3) (decrementKeyCtrs (ticks n1 s3))) = 1%nat ∧
  release_count key (enqueued s3) = release_count key (enqueued s) ∧
  release_count key (enqueued (ticks n1 s3)) = release_count key (enqueued s3) ∧
  release_count key (enqueued (decrementKeyCtrs (ticks n1 s3))) =
    S (release_count key (enqueued s3)).
Proof.
  intros Hs Hc Hnd Hin n1 s1 s2 s3.
  assert (Huniq : ∀ s', ∀ i j, keyHoldKeys !! i = Some key → keyHoldKeys !! j = Some key →
            i = j ∨ (keyHold s' !! i = Some 0 ∧ keyHold s' !! j = Some 0)).
  { intros s' i j Hi Hj. left. eapply NoDup_lookup; eauto. }
  destruct (pressKey_sole_timer key s Hs Hin (Huniq s)) as (j & Ht1 & Htr1).
  fold s1 in Ht1, Htr1.
  assert (Hs1 : well_sized s1) by (by apply pressKey_well_sized).
  assert (Hc1 : cursors_in_range s1) by (by apply pressKey_cursors).
  destruct (ticks_sole_timer j key _ _ n1 Hs1 Ht1) as (Hs2 & Ht2 & Hc2); [done|].
  fold s2 in Hs2, Ht2, Hc2.
  assert (Hcr2 : cursors_in_range s2) by (by apply ticks_cursors).
  destruct (pressKey_sole_timer key s2 Hs2 Hin (Huniq s2)) as (j' & Ht3 & Htr3).
  fold s3 in Ht3, Htr3.
  assert (Hs3 : well_sized s3) by (by apply pressKey_well_sized).
  assert (Hcr3 : cursors_in_range s3) by (by apply pressKey_cursors).
  assert (Hc3 : release_count key (enqueued s3) = release_count key (enqueued s)).
  { rewrite Htr3, release_count_press, Hc2, Htr1, release_count_press.
    unfold n1, KEY_HOLD_FRAMES. rewrite bool_decide_eq_false_2 by lia. lia. }
  split_and!.
  - intros n Hn.
    rewrite (stored_since_ticks j key KEY_HOLD_FRAMES) by done.
    unfold n1, KEY_HOLD_FRAMES in *.
    destruct (Z.eqb_spec (Z.of_nat (S n)) 2); [lia | reflexivity].
  - by apply stored_since_pressKey.
  - intros n Hn.
    rewrite (stored_since_ticks j' key KEY_HOLD_FRAMES) by done.
    unfold n1, KEY_HOLD_FRAMES in *.
    destruct (Z.eqb_spec (Z.of_nat (S n)) 2); [lia | reflexivity].
  - rewrite <- ticks_S.
    rewrite (stored_since_ticks j' key KEY_HOLD_FRAMES) by done.
    reflexivity.
  - exact Hc3.
  - destruct (ticks_sole_timer j' key _ s3 n1 Hs3 Ht3) as (_ & _ & ->); [done|].
    unfold n1, KEY_HOLD_FRAMES. rewrite bool_decide_eq_false_2 by lia. lia.
  - rewrite <- ticks_S.
    destruct (ticks_sole_timer j' key _ s3 (S n1) Hs3 Ht3) as (_ & _ & ->); [done|].
    unfold n1, KEY_HOLD_FRAMES. rewrite bool_decide_eq_true_2 by lia. lia.
Qed.
End HoldTable.

Lemma hold_release_witness :
  let key := to_char 163 in
  let s1 := pressKey (dk := doomkeys_h) key initial_input in
  let last := Z.to_nat KEY_HOLD_FRAMES in
  stored_since initial_input s1 = [(1, to_uchar key)] ∧
  (∀ n, (S n < last)%nat →
        release_count key (stored_since (ticks (dk := doomkeys_h) n s1)
                             (ticks (dk := doomkeys_h) (S n) s1)) = 0%nat) ∧
  release_count key
    (stored_since (ticks (dk := doomkeys_h) (last - 1) s1)
       (ticks (dk := doomkeys_h) last s1)) = 1%nat ∧
  enqueued s1 = enqueued initial_input ++ [(1, to_uchar key)] ∧
  (∀ n, (n < last)%nat →
        release_count key (enqueued (ticks (dk := doomkeys_h) n s1)) =
        release_count key (enqueued initial_input)) ∧
  release_count key (enqueued (ticks (dk := doomkeys_h) last s1)) =
    S (release_count key (enqueued initial_input)).
Proof.
  intros key.
  apply (hold_release_after_KEY_HOLD_FRAMES (dk := doomkeys_h) key initial_input).
  - split; reflexivity.
  - apply initial_input_cursors.
  - apply list_elem_of_here.
  - intros i Hi. apply lookup_lt_Some in Hi.
    apply lookup_replicate_2. exact Hi.
Defined.

Lemma repress_witness :
  let key := to_char 172 in
  let n1 := (Z.to_nat KEY_HOLD_FRAMES - 1)%nat in
  let s1 := pressKey (dk := doomkeys_h) key initial_input in
  let s2 := ticks (dk := doomkeys_h) n1 s1 in
  let s3 := pressKey (dk := doomkeys_h) key s2 in
  (∀ n, (n < n1)%nat →
        release_count key (stored_since (ticks (dk := doomkeys_h) n s1)
                             (ticks (dk := doomkeys_h) (S n) s1)) = 0%nat) ∧
  stored_since s2 s3 = [(1, to_uchar key)] ∧
  (∀ n, (n < n1)%nat →
        release_count key (stored_since (ticks (dk := doomkeys_h) n s3)
                             (ticks (dk := doomkeys_h) (S n) s3)) = 0%nat) ∧
  release_count key
    (stored_since (ticks (dk := doomkeys_h) n1 s3)
       (decrementKeyCtrs (dk := doomkeys_h) (ticks (dk := doomkeys_h) n1 s3))) = 1%nat ∧
  release_count key (enqueued s3) = release_count key (enqueued initial_input) ∧
  release_count key (enqueued (ticks (dk := doomkeys_h) n1 s3)) =
    release_count key (enqueued s3) ∧
  release_count key (enqueued (decrementKeyCtrs (dk := doomkeys_h) (ticks (dk := doomkeys_h) n1 s3))) =
    S (release_count key (enqueued s3)).
Proof.
  intros key.
  apply (repress_restarts_hold_timer (dk := doomkeys_h) key initial_input).
  - split; reflexivity.
  - apply initial_input_cursors.
  - apply (bool_decide_unpack _). vm_compute. exact I.
  - apply (bool_decide_unpack _). vm_compute. exact I.
Defined.

(** Press the fire key and let two frames pass: the two slots behind
    the old write cursor hold the press and the release. *)
Example hold_window_scenario :
  let s1 := pressKey (dk := doomkeys_h) (to_char 163) initial_input in
  stored_since initial_input (ticks (dk := doomkeys_h) 2 s1) = [(1, 163); (0, 163)].
Proof. reflexivity. Qed.

(** The scenario of one press of the space bar: one event comes back,
    then the queue is empty. *)
Example press_space_scenario :
  (dequeue_n 2 (pressKey (dk := doomkeys_h) 32 initial_input)).1 =
  [(1, (1, 32)); (0, (0, 0))].
Proof. reflexivity. Qed.

(** Press the fire key and let two frames pass: the queue delivers the
    press and then the release. *)
Example hold_scenario :
  (dequeue_n 3 (ticks (dk := doomkeys_h) 2
                  (pressKey (dk := doomkeys_h) (to_char 163) initial_input))).1 =
  [(1, (1, 163)); (1, (0, 163)); (0, (0, 0))].
Proof. reflexivity. Qed.

Section Invariant.
Context {dk : doomkeys}.

Lemma step_invariant (o : op) (s : Input) :
  well_sized s ∧ cursors_in_range s →
  well_sized (step s o) ∧ cursors_in_range (step s o).
Proof.
  intros [Hs Hc]. destruct o as [p k | p k | key | ]; simpl.
  - split; [by apply addKeyToQueue_well_sized | by apply addKeyToQueue_cursors].
  - split; [by apply DG_GetKey_well_sized | by apply DG_GetKey_cursors].
  - split; [by apply pressKey_well_sized | by apply pressKey_cursors].
  - split; [by apply decrementKeyCtrs_well_sized | by apply decrementKeyCtrs_cursors].
Qed.

Lemma run_invariant (ops : list op) : ∀ s,
  well_sized s ∧ cursors_in_range s →
  well_sized (run ops s) ∧ cursors_in_range (run ops s).
Proof.
  induction ops as [|o ops IH]; intros s Hinv; [exact Hinv|].
  apply (IH (step s o)). by apply step_invariant.
Qed.

(** C9.  After any sequence of operations from the initial state both
    cursors are in [[0, KEYQUEUE_SIZE)], and [DG_GetKey] returns 0
    exactly when the cursors are equal. *)
Theorem cursor_invariant (ops : list op) :
  let s := run ops initial_input in
  cursors_in_range s ∧
  ∀ pressed doomKey,
    (DG_GetKey pressed doomKey s).1.1 = 0 ↔
    s_KeyQueueReadIndex s = s_KeyQueueWriteIndex s.
Proof.
  intros s. split.
  - apply run_invariant. split; [apply initial_input_well_sized | apply initial_input_cursors].
  - intros pressed doomKey. unfold DG_GetKey.
    destruct (s_KeyQueueReadIndex s =? s_KeyQueueWriteIndex s) eqn:E; simpl.
    + apply Z.eqb_eq in E. done.
    + apply Z.eqb_neq in E. split; [discriminate | done].
Qed.
End Invariant.

(** ** The history variable *)

(** The four field equations of [same_globals], each by rewriting with
    the equations at hand. *)
Ltac same_globals_fields := split; simpl; [|split; [|split]]; congruence.

Lemma addKeyToQueue_same_globals p k s s' :
  same_globals s s' → same_globals (addKeyToQueue p k s) (addKeyToQueue p k s').
Proof. intros (Hq & Hw & Hr & Hh). unfold addKeyToQueue. same_globals_fields. Qed.

Lemma DG_GetKey_same_globals p k s s' :
  same_globals s s' →
  (DG_GetKey p k s).1 = (DG_GetKey p k s').1 ∧
  same_globals (DG_GetKey p k s).2 (DG_GetKey p k s').2.
Proof.
  intros (Hq & Hw & Hr & Hh). unfold DG_GetKey. rewrite Hq, Hw, Hr.
  destruct (_ =? _); simpl; [done|]. split; [done|].
  same_globals_fields.
Qed.

Section HistoryVariable.
Context {dk : doomkeys}.

Lemma pressKey_loop_same_globals js key s s' :
  same_globals s s' → same_globals (pressKey_loop js key s) (pressKey_loop js key s').
Proof.
  intros Hsame. induction js as [|j js IH]; [done|]. simpl.
  destruct (_ =? key); [|exact IH].
  destruct Hsame as (Hq & Hw & Hr & Hh).
  same_globals_fields.
Qed.

Lemma decrementKeyCtr_same_globals i s s' :
  same_globals s s' → same_globals (decrementKeyCtr s i) (decrementKeyCtr s' i).
Proof.
  intros Hsame. pose proof Hsame as (Hq & Hw & Hr & Hh).
  unfold decrementKeyCtr. rewrite Hh. destruct (0 <? _); [|done].
  cbn [set_keyHold keyHold]. destruct (_ =? 0).
  - apply addKeyToQueue_same_globals. same_globals_fields.
  - same_globals_fields.
Qed.

(** The history variable is never read: two states that agree on the C
    globals still agree on them after any operation. *)
Lemma step_same_globals o s s' :
  same_globals s s' → same_globals (step s o) (step s' o).
Proof.
  intros Hsame. destruct o as [p k | p k | key | ]; simpl.
  - by apply addKeyToQueue_same_globals.
  - by apply DG_GetKey_same_globals.
  - unfold pressKey. apply pressKey_loop_same_globals.
    by apply addKeyToQueue_same_globals.
  - unfold decrementKeyCtrs. generalize (seq 0 KEY_HOLD_KEYS). intros idx.
    revert s s' Hsame. induction idx as [|i idx IH]; intros s s' Hsame; [done|].
    simpl. apply IH. by apply decrementKeyCtr_same_globals.
Qed.
End HistoryVariable.

(** ** The renderer *)

Lemma row_text_pixels resx screen row :
  row_text resx screen row = pixels_text screen (row * resx) resx ++ [10].
Proof. reflexivity. Qed.

Lemma length_pixels_text screen pixel n : length (pixels_text screen pixel n) = (2 * n)%nat.
Proof.
  unfold pixels_text. induction n as [|n IH]; [done|].
  rewrite seq_S, flat_map_app, length_app, IH. simpl. lia.
Qed.

Lemma length_row_text resx screen row : length (row_text resx screen row) = (2 * resx + 1)%nat.
Proof. rewrite row_text_pixels, length_app, length_pixels_text. simpl. lia. Qed.

Lemma frame_text_S resy resx screen :
  frame_text (S resy) resx screen = frame_text resy resx screen ++ row_text resx screen resy.
Proof. unfold frame_text. rewrite seq_S, flat_map_app. simpl. by rewrite app_nil_r. Qed.

Lemma length_frame_text resy resx screen :
  length (frame_text resy resx screen) = (resy * (2 * resx + 1))%nat.
Proof.
  induction resy as [|n IH]; [done|].
  rewrite frame_text_S, length_app, IH, length_row_text. lia.
Qed.

Lemma draw_pixels_spec screen n : ∀ pixel buf mem,
  Nat.iter n (draw_pixel screen) (pixel, buf, mem) =
  ((pixel + n)%nat, (buf + 2 * n)%nat, list_inserts buf (pixels_text screen pixel n) mem).
Proof.
  induction n as [|n IH]; intros pixel buf mem.
  - simpl. do 2 f_equal; lia.
  - rewrite Nat.iter_succ, IH. unfold draw_pixel, pixels_text.
    rewrite seq_S, flat_map_app, list_inserts_app_l.
    fold (pixels_text screen pixel n). rewrite length_pixels_text.
    cbn [flat_map list_inserts app Nat.add].
    rewrite list_insert_insert_ne by lia.
    replace (2 * n + buf)%nat with (buf + 2 * n)%nat by lia.
    do 2 f_equal; lia.
Qed.

Lemma draw_rows_spec screen resx resy mem :
  draw_rows resy resx screen (0%nat, 0%nat, mem) =
  ((resy * resx)%nat, (resy * (2 * resx + 1))%nat,
   list_inserts 0 (frame_text resy resx screen) mem).
Proof.
  unfold draw_rows. induction resy as [|n IH]; [done|].
  rewrite Nat.iter_succ, IH. unfold draw_row. rewrite draw_pixels_spec.
  rewrite frame_text_S, row_text_pixels, !list_inserts_app_l.
  rewrite length_frame_text, length_pixels_text, !Nat.add_0_r.
  cbn [list_inserts].
  replace (2 * resx + n * (2 * resx + 1))%nat with (n * (2 * resx + 1) + 2 * resx)%nat by lia.
  do 2 f_equal; lia.
Qed.

Lemma brightness_range (pixel : Z) : 0 <= brightness pixel <= 765.
Proof.
  unfold brightness, color_t.r, color_t.g, color_t.b.
  pose proof (land_255_range pixel).
  pose proof (land_255_range (Z.shiftr pixel 8)).
  pose proof (land_255_range (Z.shiftr pixel 16)). lia.
Qed.

Lemma grad_index_range (bright : Z) :
  0 <= bright <= 765 → 0 <= grad_index bright < GRAD_LEN.
Proof.
  intros Hb. unfold grad_index, GRAD_LEN. rewrite to_uint32_small by lia.
  Z.div_mod_to_equations. lia.
Qed.

(** C2.  For a brightness in [[0, 765]] the subscript of line 134 is in
    [[0, GRAD_LEN)], hence inside [grad]. *)
Theorem grad_index_in_bounds (bright : Z) :
  0 <= bright <= 765 →
  0 <= grad_index bright < GRAD_LEN ∧
  (Z.to_nat (grad_index bright) < length grad)%nat.
Proof.
  intros Hb. pose proof (grad_index_range bright Hb) as Hi.
  split; [exact Hi|]. change (length grad) with 71%nat.
  unfold GRAD_LEN in Hi. lia.
Qed.

Lemma grad_index_in_bounds_witness :
  0 <= grad_index 382 < GRAD_LEN ∧ (Z.to_nat (grad_index 382) < length grad)%nat.
Proof. apply (grad_index_in_bounds 382). lia. Defined.

(** C3.  Brightness 0 selects [grad[0]], the blank; brightness 765, a
    white pixel, selects [grad[GRAD_LEN - 1]], the dollar sign, one
    before the terminating NUL. *)
Theorem grad_index_endpoints :
  grad_index 0 = 0 ∧ grad_index 765 = GRAD_LEN - 1 ∧
  brightness 0 = 0 ∧ brightness white_pixel = 765 ∧
  grad !! Z.to_nat (grad_index 0) = Some 32 ∧
  grad !! Z.to_nat (grad_index 765) = Some 36 ∧
  grad !! Z.to_nat GRAD_LEN = Some 0.
Proof. repeat split; reflexivity. Qed.

(** C4 as stated fails: at brightness 765 the divisor [3 * 255] gives
    70, one past the ramp, where the code's 766 gives 69. *)
Lemma spec_index_differs_at_white :
  0 <= 765 <= 765 ∧ spec_index 765 = 70 ∧ grad_index 765 = 69 ∧
  spec_index 765 ≠ grad_index 765.
Proof. repeat split; try reflexivity; try lia. intros H. vm_compute in H. discriminate. Qed.

(** C4 (as amended).  The code's index is the other formula's value or
    one less, and the two agree exactly when the quotient by [3 * 255]
    does not exceed the remainder. *)
Theorem spec_index_vs_grad_index (bright : Z) :
  0 <= bright <= 765 →
  grad_index bright <= spec_index bright <= grad_index bright + 1 ∧
  (spec_index bright = grad_index bright ↔
   spec_index bright <= (bright * GRAD_LEN) mod (3 * 255)).
Proof.
  intros Hb. unfold grad_index, spec_index, GRAD_LEN.
  rewrite to_uint32_small by lia. change (3 * 255) with 765.
  Z.div_mod_to_equations. lia.
Qed.

Lemma spec_index_vs_grad_index_witness :
  grad_index 153 <= spec_index 153 <= grad_index 153 + 1 ∧
  (spec_index 153 = grad_index 153 ↔
   spec_index 153 <= (153 * GRAD_LEN) mod (3 * 255)).
Proof. apply (spec_index_vs_grad_index 153). lia. Defined.

Lemma ramp_glyphs : Forall is_glyph (take (Z.to_nat GRAD_LEN) grad).
Proof.
  let ramp := eval vm_compute in (take (Z.to_nat GRAD_LEN) grad) in
  change (take (Z.to_nat GRAD_LEN) grad) with ramp.
  repeat (apply Forall_cons_2; [split; discriminate |]). apply Forall_nil_2.
Qed.

Lemma v_char_glyph (pixel : Z) : is_glyph (v_char pixel).
Proof.
  unfold v_char.
  pose proof (grad_index_range _ (brightness_range pixel)) as Hi.
  destruct (take (Z.to_nat GRAD_LEN) grad !! Z.to_nat (grad_index (brightness pixel)))
    as [c|] eqn:Hc.
  - pose proof (proj1 (Forall_lookup _ _) ramp_glyphs _ _ Hc) as Hg.
    apply lookup_take_Some in Hc as [-> _]. exact Hg.
  - apply lookup_ge_None in Hc. rewrite length_take in Hc.
    change (length grad) with 71%nat in Hc. unfold GRAD_LEN in *. lia.
Qed.

Lemma pixels_text_S screen pixel n :
  pixels_text screen pixel (S n) =
  pixels_text screen pixel n ++
  [v_char (default 0 (screen !! (pixel + n)%nat)); v_char (default 0 (screen !! (pixel + n)%nat))].
Proof. unfold pixels_text. by rewrite seq_S, flat_map_app. Qed.

Lemma pixels_text_glyphs screen pixel n : Forall is_glyph (pixels_text screen pixel n).
Proof.
  induction n as [|n IH]; [apply Forall_nil_2|].
  rewrite pixels_text_S. apply Forall_app. split; [exact IH|].
  repeat apply Forall_cons_2; try apply v_char_glyph. apply Forall_nil_2.
Qed.

Lemma filter_newline_glyphs (l : list Z) :
  Forall is_glyph l →
  filter (fun c => c = 10) l = [] ∧ filter (fun c => c ≠ 10) l = l.
Proof.
  induction 1 as [|c l [_ Hc] _ [IH1 IH2]]; [done|].
  rewrite filter_cons_False, filter_cons_True by done. by rewrite IH1, IH2.
Qed.

Lemma frame_text_counts resy resx screen :
  length (filter (fun c => c = 10) (frame_text resy resx screen)) = resy ∧
  length (filter (fun c => c ≠ 10) (frame_text resy resx screen)) = (2 * resx * resy)%nat.
Proof.
  induction resy as [|n [IH1 IH2]]; [done|].
  rewrite frame_text_S, row_text_pixels, !filter_app, !length_app, IH1, IH2.
  destruct (filter_newline_glyphs _ (pixels_text_glyphs screen (n * resx) resx)) as [-> ->].
  rewrite length_pixels_text.
  rewrite filter_cons_True by done.
  rewrite filter_cons_False by (intros Hne; by apply Hne). simpl. lia.
Qed.

Lemma lookup_pixels_text screen pixel n col :
  (col < n)%nat →
  let v := v_char (default 0 (screen !! (pixel + col)%nat)) in
  pixels_text screen pixel n !! (2 * col)%nat = Some v ∧
  pixels_text screen pixel n !! (2 * col + 1)%nat = Some v.
Proof.
  intros Hcol v. induction n as [|n IH]; [lia|].
  rewrite pixels_text_S.
  destruct (decide (col = n)) as [->|Hne].
  - rewrite !lookup_app_r by (rewrite length_pixels_text; lia).
    rewrite length_pixels_text.
    replace (2 * n - 2 * n)%nat with 0%nat by lia.
    replace (2 * n + 1 - 2 * n)%nat with 1%nat by lia. done.
  - rewrite !lookup_app_l by (rewrite length_pixels_text; lia). apply IH. lia.
Qed.

Lemma lookup_frame_text resy resx screen row k :
  (row < resy)%nat → (k < 2 * resx + 1)%nat →
  frame_text resy resx screen !! (row * (2 * resx + 1) + k)%nat =
  row_text resx screen row !! k.
Proof.
  intros Hrow Hk. induction resy as [|n IH]; [lia|].
  rewrite frame_text_S.
  destruct (decide (row = n)) as [->|Hne].
  - rewrite lookup_app_r by (rewrite length_frame_text; lia).
    rewrite length_frame_text. f_equal. lia.
  - rewrite lookup_app_l by (rewrite length_frame_text; nia). apply IH. lia.
Qed.

Lemma frame_text_no_NUL resy resx screen :
  Forall (fun c => c ≠ 0) (frame_text resy resx screen).
Proof.
  induction resy as [|n IH]; [apply Forall_nil_2|].
  rewrite frame_text_S, row_text_pixels. apply Forall_app. split; [exact IH|].
  apply Forall_app. split; [|by apply Forall_cons_2].
  eapply Forall_impl; [apply pixels_text_glyphs|]. by intros c [? _].
Qed.

Lemma c_string_text (text rest : list Z) :
  Forall (fun c => c ≠ 0) text → c_string (text ++ 0 :: rest) = text.
Proof.
  induction 1 as [|c l Hc _ IH]; [done|].
  simpl. apply Z.eqb_neq in Hc. by rewrite Hc, IH.
Qed.

Lemma list_inserts_0_prefix (text mem : list Z) :
  (length text <= length mem)%nat →
  list_inserts 0 text mem = text ++ drop (length text) mem.
Proof.
  intros Hlen. rewrite <- (take_drop (length text) mem) at 1.
  apply list_inserts_0_r. rewrite length_take. lia.
Qed.

Lemma c_string_app (text rest : list Z) :
  Forall (fun c => c ≠ 0) text → c_string (text ++ rest) = text ++ c_string rest.
Proof.
  induction 1 as [|c l Hc _ IH]; [done|].
  simpl. apply Z.eqb_neq in Hc. by rewrite Hc, IH.
Qed.

Lemma lookup_malloc (cells : Z) (contents : nat → Z) (i : nat) :
  (i < Z.to_nat cells)%nat → malloc cells contents !! i = Some (contents i).
Proof.
  intros Hi. unfold malloc. rewrite list_lookup_fmap, lookup_seq_lt by exact Hi.
  reflexivity.
Qed.

Lemma length_malloc cells contents : length (malloc cells contents) = Z.to_nat cells.
Proof. unfold malloc. by rewrite length_map, length_seq. Qed.

Lemma v_char_black (pixel : Z) : brightness pixel = 0 → v_char pixel = 32.
Proof. intros Hb. unfold v_char. rewrite Hb. reflexivity. Qed.

Lemma pixels_text_black screen pixel n :
  (∀ i, v_char (default 0 (screen !! i)) = 32) →
  pixels_text screen pixel n = replicate (2 * n) 32.
Proof.
  intros Hv. induction n as [|n IH]; [done|].
  rewrite pixels_text_S, IH, Hv.
  replace (2 * S n)%nat with (2 * n + 2)%nat by lia.
  by rewrite replicate_add.
Qed.

Lemma frame_text_black resy resx screen :
  Forall (fun pixel => brightness pixel = 0) screen →
  frame_text resy resx screen =
  concat (replicate resy (replicate (2 * resx) 32 ++ [10])).
Proof.
  intros Hblack.
  assert (Hv : ∀ i, v_char (default 0 (screen !! i)) = 32).
  { intros i. destruct (screen !! i) as [pixel|] eqn:Hi; [|reflexivity].
    apply v_char_black. exact (proj1 (Forall_lookup _ _) Hblack _ _ Hi). }
  induction resy as [|n IH]; [done|].
  rewrite frame_text_S, IH, row_text_pixels, pixels_text_black by exact Hv.
  rewrite replicate_S_end, concat_app. simpl. by rewrite app_nil_r.
Qed.

Section RendererProperties.
Context {dk : doomkeys}.

Lemma DG_DrawFrame_unfold (st : State) :
  let resx := Z.to_nat (DOOMGENERIC_RESX st) in
  let resy := Z.to_nat (DOOMGENERIC_RESY st) in
  let text := frame_text resy resx (DG_ScreenBuffer st) in
  let mem := list_inserts 0 text (output_buffer st) in
  DG_DrawFrame st =
  {| DOOMGENERIC_RESX := DOOMGENERIC_RESX st;
     DOOMGENERIC_RESY := DOOMGENERIC_RESY st;
     DG_ScreenBuffer := DG_ScreenBuffer st;
     output_buffer := memset mem 0 (length text + 1);
     stdout := stdout st ++ c_string mem;
     input := decrementKeyCtrs (input st) |}.
Proof.
  intros resx resy text mem. unfold DG_DrawFrame.
  rewrite draw_rows_spec. fold resx resy text mem.
  by rewrite <- (length_frame_text resy resx (DG_ScreenBuffer st)).
Qed.

(** X19.  A screen of [resx * resy] pixels and an output buffer with
    room for the frame.  The loops store the frame text at the start
    of the buffer and nothing else; the text has [resy] newlines and
    [2 * resx * resy] other characters; pixel [(row, col)] gives the
    two characters at offset [2 * col] of line [row], and each line
    ends in a newline; the text is what is printed when the byte
    behind it is NUL; a black 160x100 screen gives 100 lines of 320
    blanks. *)
Theorem render_pass_text (st : State) :
  let resx := Z.to_nat (DOOMGENERIC_RESX st) in
  let resy := Z.to_nat (DOOMGENERIC_RESY st) in
  let screen := DG_ScreenBuffer st in
  let text := frame_text resy resx screen in
  length screen = (resx * resy)%nat →
  (length text <= length (output_buffer st))%nat →
  draw_rows resy resx screen (0%nat, 0%nat, output_buffer st) =
    (length screen, length text, text ++ drop (length text) (output_buffer st)) ∧
  length (filter (fun c => c = 10) text) = resy ∧
  length (filter (fun c => c ≠ 10) text) = (2 * resx * resy)%nat ∧
  (∀ row col pixel,
      (col < resx)%nat → screen !! (row * resx + col)%nat = Some pixel →
      text !! (row * (2 * resx + 1) + 2 * col)%nat = Some (v_char pixel) ∧
      text !! (row * (2 * resx + 1) + 2 * col + 1)%nat = Some (v_char pixel)) ∧
  (∀ row, (row < resy)%nat →
      text !! (row * (2 * resx + 1) + 2 * resx)%nat = Some 10) ∧
  (output_buffer st !! length text = Some 0 →
      stdout (DG_DrawFrame st) = stdout st ++ text) ∧
  (DOOMGENERIC_RESX st = RESX_default → DOOMGENERIC_RESY st = RESY_default →
   Forall (fun pixel => brightness pixel = 0) screen →
      grad !! 0%nat = Some 32 ∧
      text = concat (replicate 100 (replicate 320 32 ++ [10]))).
Proof.
  intros resx resy screen text Hscreen Hroom.
  split; [|split; [|split; [|split; [|split; [|split]]]]].
  - rewrite draw_rows_spec, list_inserts_0_prefix by exact Hroom.
    fold screen text. rewrite Hscreen.
    replace (length text) with (resy * (2 * resx + 1))%nat
      by (symmetry; apply length_frame_text).
    do 2 f_equal. lia.
  - apply frame_text_counts.
  - apply frame_text_counts.
  - intros row col pixel Hcol Hpixel.
    assert (Hrow : (row < resy)%nat).
    { apply lookup_lt_Some in Hpixel. rewrite Hscreen in Hpixel. nia. }
    unfold text.
    rewrite <- Nat.add_assoc, !lookup_frame_text by lia.
    rewrite row_text_pixels, !lookup_app_l by (rewrite length_pixels_text; lia).
    pose proof (lookup_pixels_text screen (row * resx) resx col Hcol) as Hl.
    cbv zeta in Hl. rewrite Hpixel in Hl. exact Hl.
  - intros row Hrow. unfold text.
    rewrite lookup_frame_text by lia.
    rewrite row_text_pixels, lookup_app_r by (rewrite length_pixels_text; lia).
    rewrite length_pixels_text, Nat.sub_diag. reflexivity.
  - intros Hnul. rewrite DG_DrawFrame_unfold. cbv zeta. fold resx resy screen text.
    cbn [stdout]. rewrite list_inserts_0_prefix by exact Hroom.
    rewrite (drop_S _ _ _ Hnul), c_string_text; [reflexivity|].
    apply frame_text_no_NUL.
  - intros Hx Hy Hblack. split; [reflexivity|].
    unfold text. rewrite frame_text_black by exact Hblack.
    unfold resx, resy. rewrite Hx, Hy. reflexivity.
Qed.

(** What a frame prints, whatever the block holds: the frame text, then
    the string that starts in the cell behind it. *)
Lemma stdout_DG_DrawFrame (st : State) :
  let text := frame_text (Z.to_nat (DOOMGENERIC_RESY st))
                (Z.to_nat (DOOMGENERIC_RESX st)) (DG_ScreenBuffer st) in
  (length text <= length (output_buffer st))%nat →
  stdout (DG_DrawFrame st) =
  stdout st ++ text ++ c_string (drop (length text) (output_buffer st)).
Proof.
  intros text Hroom. rewrite DG_DrawFrame_unfold. cbv zeta. fold text.
  cbn [stdout]. rewrite list_inserts_0_prefix by exact Hroom.
  rewrite c_string_app by apply frame_text_no_NUL. reflexivity.
Qed.

(** C5.  The first frame after [dg_Create] at 160x100, [malloc] having
    handed [DG_Init] a recycled block that is zero but for a stale
    newline in the cell behind the frame text.  The screen has its
    160x100 pixels and the block has room for the frame, yet the frame
    prints its text and then the stale byte: 101 line terminators, not
    100.  Nothing stores a NUL behind the text before [printf]
    (line 151) reads it; the [memset] of line 154 comes after. *)
Theorem first_frame_prints_stale_byte (pixels : nat → Z) :
  let st := dg_Create pixels (stale_block 10) black_frame in
  let text := frame_text 100 160 (DG_ScreenBuffer st) in
  length (DG_ScreenBuffer st) = (160 * 100)%nat ∧
  (length text < length (output_buffer st))%nat ∧
  stdout (DG_DrawFrame st) = text ++ [10] ∧
  length (filter (fun c => c = 10) (stdout (DG_DrawFrame st))) = 101%nat.
Proof.
  intros st text.
  assert (Hob : output_buffer st = malloc 336104 (stale_block 10)) by reflexivity.
  assert (Hsc : DG_ScreenBuffer st = malloc 16000 pixels) by reflexivity.
  assert (Hlen : length text = frame_end).
  { unfold text. rewrite length_frame_text.
    unfold frame_end, RESX_default, RESY_default. lia. }
  assert (Hout : stdout (DG_DrawFrame st) = text ++ [10]).
  { rewrite stdout_DG_DrawFrame.
    2:{ change (length text <= length (output_buffer st))%nat.
        rewrite Hlen, Hob, length_malloc.
        unfold frame_end, RESX_default, RESY_default. lia. }
    change (stdout st ++ text ++ c_string (drop (length text) (output_buffer st)) = text ++ [10]).
    rewrite Hlen, Hob.
    rewrite (drop_S _ (stale_block 10 frame_end) frame_end).
    2:{ apply lookup_malloc. unfold frame_end, RESX_default, RESY_default. lia. }
    rewrite (drop_S _ (stale_block 10 (S frame_end)) (S frame_end)).
    2:{ apply lookup_malloc. unfold frame_end, RESX_default, RESY_default. lia. }
    unfold stale_block at 1 2. rewrite Nat.eqb_refl.
    destruct (Nat.eqb_spec (S frame_end) frame_end) as [Heq|_]; [lia|].
    set (rest := drop (S (S frame_end)) _).
    pose proof (c_string_text [10] rest) as Hstr. cbn [app] in Hstr.
    rewrite Hstr; [reflexivity|].
    apply Forall_cons_2; [done | apply Forall_nil_2]. }
  split_and!.
  - rewrite Hsc, length_malloc. lia.
  - rewrite Hlen, Hob, length_malloc.
    unfold frame_end, RESX_default, RESY_default. lia.
  - exact Hout.
  - rewrite Hout, filter_app, length_app.
    destruct (frame_text_counts 100 160 (DG_ScreenBuffer st)) as [Hnl _].
    fold text in Hnl. rewrite Hnl. reflexivity.
Qed.



Lemma decrementKeyCtr_idle s i :
  Forall (fun c => c <= 0) (keyHold s) → decrementKeyCtr s i = s.
Proof.
  intros Hidle. unfold decrementKeyCtr.
  destruct (keyHold s !! i) as [c|] eqn:Hc; [|done]. simpl.
  pose proof (proj1 (Forall_lookup _ _) Hidle _ _ Hc) as Hle. simpl in Hle.
  destruct (0 <? c) eqn:E; [lia | done].
Qed.

Lemma decrementKeyCtrs_idle s :
  Forall (fun c => c <= 0) (keyHold s) → decrementKeyCtrs s = s.
Proof.
  intros Hidle. unfold decrementKeyCtrs. generalize (seq 0 KEY_HOLD_KEYS).
  intros idx. induction idx as [|i idx IH]; [done|].
  simpl. by rewrite decrementKeyCtr_idle.
Qed.


Lemma DG_DrawFrame_output_buffer (st : State) :
  let text := frame_text (Z.to_nat (DOOMGENERIC_RESY st))
                (Z.to_nat (DOOMGENERIC_RESX st)) (DG_ScreenBuffer st) in
  (length text < length (output_buffer st))%nat →
  length (output_buffer (DG_DrawFrame st)) = length (output_buffer st) ∧
  output_buffer (DG_DrawFrame st) !! length text = Some 0.
Proof.
  intros text Hroom. rewrite DG_DrawFrame_unfold. cbv zeta. fold text.
  cbn [output_buffer]. unfold memset. split.
  - by rewrite !length_inserts.
  - rewrite list_lookup_inserts.
    + apply lookup_replicate_2. lia.
    + rewrite length_replicate. lia.
    + by rewrite length_inserts.
Qed.

(** From the second frame on the printed text is exactly the frame:
    the frame before left a NUL right behind it. *)
Lemma stdout_second_frame (st : State) :
  let text := frame_text (Z.to_nat (DOOMGENERIC_RESY st))
                (Z.to_nat (DOOMGENERIC_RESX st)) (DG_ScreenBuffer st) in
  (length text < length (output_buffer st))%nat →
  stdout (DG_DrawFrame (DG_DrawFrame st)) = stdout (DG_DrawFrame st) ++ text.
Proof.
  intros text Hroom.
  destruct (DG_DrawFrame_output_buffer st Hroom) as [Hlen Hnul].
  fold text in Hnul.
  rewrite (DG_DrawFrame_unfold (DG_DrawFrame st)). cbv zeta. cbn [stdout].
  f_equal.
  assert (Hx : DOOMGENERIC_RESX (DG_DrawFrame st) = DOOMGENERIC_RESX st)
    by (by rewrite DG_DrawFrame_unfold).
  assert (Hy : DOOMGENERIC_RESY (DG_DrawFrame st) = DOOMGENERIC_RESY st)
    by (by rewrite DG_DrawFrame_unfold).
  assert (Hs : DG_ScreenBuffer (DG_DrawFrame st) = DG_ScreenBuffer st)
    by (by rewrite DG_DrawFrame_unfold).
  rewrite Hx, Hy, Hs. fold text.
  rewrite list_inserts_0_prefix by lia.
  rewrite (drop_S _ _ _ Hnul). apply c_string_text, frame_text_no_NUL.
Qed.
End RendererProperties.

Lemma frame_fits_output_buffer (resx resy : Z) (screen : list Z) :
  0 <= resx → 0 <= resy → 21 * resx * resy + resy + 4 < 4294967296 →
  (length (frame_text (Z.to_nat resy) (Z.to_nat resx) screen)
   < Z.to_nat (output_buffer_size resx resy))%nat.
Proof.
  intros Hx Hy Hsize. rewrite length_frame_text.
  unfold output_buffer_size. rewrite to_uint32_small by nia. nia.
Qed.

Lemma render_pass_text_witness :
  stdout (DG_DrawFrame (dk := doomkeys_h) black_frame) =
  concat (replicate 100 (replicate 320 32 ++ [10])).
Proof.
  assert (H1 : length (DG_ScreenBuffer black_frame) =
               (Z.to_nat (DOOMGENERIC_RESX black_frame) *
                Z.to_nat (DOOMGENERIC_RESY black_frame))%nat)
    by (vm_compute; reflexivity).
  assert (H2 : (length (frame_text (Z.to_nat (DOOMGENERIC_RESY black_frame))
                          (Z.to_nat (DOOMGENERIC_RESX black_frame))
                          (DG_ScreenBuffer black_frame))
                <= length (output_buffer black_frame))%nat)
    by (apply Nat.leb_le; vm_compute; reflexivity).
  destruct (render_pass_text (dk := doomkeys_h) black_frame H1 H2)
    as (_ & _ & _ & _ & _ & Hout & Hblack).
  rewrite Hout by (vm_compute; reflexivity).
  apply Hblack; [reflexivity | reflexivity |].
  apply Forall_replicate. reflexivity.
Defined.

(** The 2x2 frame over a zeroed buffer: blank, dollar, [n], brace. *)
Example tiny_frame_text :
  stdout (DG_DrawFrame (dk := doomkeys_h) (tiny_frame 0)) =
  [32; 32; 36; 36; 10; 110; 110; 123; 123; 10].
Proof. vm_compute. reflexivity. Qed.

(** The same frame over a block that holds no NUL: [printf] runs on
    through the 80 cells behind the frame. *)
Example tiny_frame_uninitialised :
  stdout (DG_DrawFrame (dk := doomkeys_h) (tiny_frame 63)) =
  [32; 32; 36; 36; 10; 110; 110; 123; 123; 10] ++ replicate 80 63.
Proof. vm_compute. reflexivity. Qed.



(** * Further properties *)

(** ** The brightness ramp *)

(** X1.  A brighter pixel never gets an earlier character of the ramp. *)
Theorem grad_index_monotone (b1 b2 : Z) :
  0 <= b1 <= b2 → b2 <= 765 → grad_index b1 <= grad_index b2.
Proof.
  intros H1 H2. unfold grad_index, GRAD_LEN.
  rewrite !to_uint32_small by lia. apply Z.div_le_mono; lia.
Qed.

Lemma grad_index_monotone_witness : grad_index 100 <= grad_index 101.
Proof. apply (grad_index_monotone 100 101); lia. Defined.

(** X2.  Every one of the 70 ramp characters is used: index [i] is the
    index of brightness [(766 * i + 69) / 70]. *)
Theorem grad_index_onto (i : Z) :
  0 <= i < GRAD_LEN →
  let bright := (766 * i + 69) / 70 in
  0 <= bright <= 765 ∧ grad_index bright = i.
Proof.
  intros Hi bright. unfold bright, grad_index, GRAD_LEN in *.
  assert (Hb : 0 <= (766 * i + 69) / 70 <= 765) by (Z.div_mod_to_equations; lia).
  split; [exact Hb|]. rewrite to_uint32_small by lia.
  Z.div_mod_to_equations. lia.
Qed.

Lemma grad_index_onto_witness :
  let bright := (766 * 69 + 69) / 70 in
  0 <= bright <= 765 ∧ grad_index bright = 69.
Proof. apply (grad_index_onto 69). unfold GRAD_LEN. lia. Defined.

Lemma brightness_low_24_bits (pixel : Z) :
  brightness (Z.land pixel 16777215) = brightness pixel.
Proof.
  unfold brightness, color_t.r, color_t.g, color_t.b.
  change 16777215 with (Z.ones 24). change 255 with (Z.ones 8).
  rewrite !Z.land_ones, !Z.shiftr_div_pow2 by lia.
  change (2 ^ 24) with 16777216. change (2 ^ 16) with 65536.
  change (2 ^ 8) with 256.
  Z.div_mod_to_equations. lia.
Qed.

(** X3.  Two pixels that agree on their low 24 bits, the blue, green
    and red fields, get the same character: the [a] field is not read. *)
Theorem v_char_ignores_alpha (p q : Z) :
  Z.land p 16777215 = Z.land q 16777215 → v_char p = v_char q.
Proof.
  intros Hrgb. unfold v_char.
  rewrite <- (brightness_low_24_bits p), <- (brightness_low_24_bits q), Hrgb.
  reflexivity.
Qed.

Lemma v_char_ignores_alpha_witness : v_char 4279383126 = v_char 1193046.
Proof. apply (v_char_ignores_alpha 4279383126 1193046). reflexivity. Defined.

Lemma ramp_printable :
  Forall (fun c => 32 <= c <= 126) (take (Z.to_nat GRAD_LEN) grad).
Proof.
  let ramp := eval vm_compute in (take (Z.to_nat GRAD_LEN) grad) in
  change (take (Z.to_nat GRAD_LEN) grad) with ramp.
  repeat (apply Forall_cons_2; [lia |]). apply Forall_nil_2.
Qed.

(** X4.  The character of a pixel, whatever its 32 bits, is one of the
    70 ramp characters, all printable ASCII. *)
Theorem v_char_printable (pixel : Z) :
  v_char pixel ∈ take (Z.to_nat GRAD_LEN) grad ∧ 32 <= v_char pixel <= 126.
Proof.
  unfold v_char.
  pose proof (grad_index_range _ (brightness_range pixel)) as Hi.
  destruct (take (Z.to_nat GRAD_LEN) grad !! Z.to_nat (grad_index (brightness pixel)))
    as [c|] eqn:Hc.
  - pose proof (proj1 (Forall_lookup _ _) ramp_printable _ _ Hc) as Hp.
    pose proof (list_elem_of_lookup_2 _ _ _ Hc) as Hin.
    apply lookup_take_Some in Hc as [-> _]. done.
  - apply lookup_ge_None in Hc. rewrite length_take in Hc.
    change (length grad) with 71%nat in Hc. unfold GRAD_LEN in *. lia.
Qed.

(** ** Frames in sequence *)

Section FramesProps.
Context {dk : doomkeys}.

Lemma frames_S k st : frames (S k) st = DG_DrawFrame (frames k st).
Proof. reflexivity. Qed.

Lemma memset_prefix (mem : list Z) (n : nat) :
  (n <= length mem)%nat → memset mem 0 n = replicate n 0 ++ drop n mem.
Proof.
  intros Hn. unfold memset. rewrite list_inserts_0_prefix by (by rewrite length_replicate).
  by rewrite length_replicate.
Qed.

(** X5.  A frame leaves the output buffer zeroed up to and including the
    cell behind the frame text, and the cells after that as they were. *)
Theorem DG_DrawFrame_clears_output_buffer (st : State) :
  let text := frame_text (Z.to_nat (DOOMGENERIC_RESY st))
                (Z.to_nat (DOOMGENERIC_RESX st)) (DG_ScreenBuffer st) in
  (length text < length (output_buffer st))%nat →
  output_buffer (DG_DrawFrame st) =
  replicate (S (length text)) 0 ++ drop (S (length text)) (output_buffer st).
Proof.
  intros text Hroom. rewrite DG_DrawFrame_unfold. cbv zeta. fold text.
  cbn [output_buffer]. rewrite list_inserts_0_prefix by lia.
  rewrite memset_prefix by (rewrite length_app, length_drop; lia).
  replace (length text + 1)%nat with (S (length text)) by lia.
  f_equal. rewrite drop_app_ge by lia. rewrite drop_drop. f_equal. lia.
Qed.

Lemma frames_keep (k : nat) (st : State) :
  DOOMGENERIC_RESX (frames k st) = DOOMGENERIC_RESX st ∧
  DOOMGENERIC_RESY (frames k st) = DOOMGENERIC_RESY st ∧
  DG_ScreenBuffer (frames k st) = DG_ScreenBuffer st ∧
  length (output_buffer (frames k st)) = length (output_buffer st) ∧
  input (frames k st) = ticks k (input st).
Proof.
  induction k as [|k (IHx & IHy & IHs & IHl & IHi)].
  { split_and!; reflexivity. }
  rewrite frames_S, DG_DrawFrame_unfold. cbv zeta.
  cbn [DOOMGENERIC_RESX DOOMGENERIC_RESY DG_ScreenBuffer output_buffer input].
  unfold memset. rewrite !length_inserts, IHi, ticks_S. split_and!; try assumption; reflexivity.
Qed.

(** X6.  With room in the buffer for the frame and one more cell, every
    frame after the first prints exactly the frame text, whatever the
    block held at the start. *)
Theorem frames_print_the_frame (k : nat) (st : State) :
  let text := frame_text (Z.to_nat (DOOMGENERIC_RESY st))
                (Z.to_nat (DOOMGENERIC_RESX st)) (DG_ScreenBuffer st) in
  (length text < length (output_buffer st))%nat →
  stdout (frames (S k) st) =
  stdout (DG_DrawFrame st) ++ concat (replicate k text).
Proof.
  intros text Hroom. induction k as [|k IH].
  - simpl. by rewrite app_nil_r.
  - pose proof (stdout_second_frame (frames k st)) as H2. cbv zeta in H2.
    destruct (frames_keep k st) as (Hx' & Hy' & Hs' & Hl' & _).
    rewrite Hx', Hy', Hs', Hl' in H2. fold text in H2.
    rewrite <- frames_S in H2. rewrite <- frames_S in H2.
    rewrite (H2 Hroom), IH, <- app_assoc. f_equal.
    rewrite replicate_S_end, concat_app. simpl. by rewrite app_nil_r.
Qed.
End FramesProps.

Lemma DG_DrawFrame_clears_output_buffer_witness :
  output_buffer (DG_DrawFrame (dk := doomkeys_h) (tiny_frame 63)) =
  replicate 11 0 ++ replicate 79 63.
Proof.
  rewrite (DG_DrawFrame_clears_output_buffer (dk := doomkeys_h) (tiny_frame 63))
    by (vm_compute; lia).
  vm_compute. reflexivity.
Defined.

Lemma frames_print_the_frame_witness :
  stdout (frames (dk := doomkeys_h) 3 (tiny_frame 0)) =
  concat (replicate 3 [32; 32; 36; 36; 10; 110; 110; 123; 123; 10]).
Proof.
  rewrite (frames_print_the_frame (dk := doomkeys_h) 2 (tiny_frame 0))
    by (vm_compute; lia).
  vm_compute. reflexivity.
Defined.

(** ** Start-up and the decimal macro *)

Lemma DG_Init_size_once (resx resy : Z) :
  to_uint32 (to_uint32 (to_uint32 (to_uint32 (21 * resx) * resy) + resy) + 4) =
  output_buffer_size resx resy.
Proof.
  unfold output_buffer_size, to_uint32.
  rewrite Z.mul_mod_idemp_l, Z.add_mod_idemp_l by lia.
  rewrite <- Z.add_assoc, Z.add_mod_idemp_l, Z.add_assoc by lia.
  reflexivity.
Qed.

(** X7.  For a resolution whose buffer size does not wrap, [dg_Create]
    leaves a screen of [resx * resy] pixels and an output buffer of
    [21 * resx * resy + resy + 4] cells, which is more than a frame
    takes; it touches nothing else. *)
Theorem dg_Create_sizes (pixels contents : nat → Z) (st : State) :
  let resx := DOOMGENERIC_RESX st in
  let resy := DOOMGENERIC_RESY st in
  let st' := dg_Create pixels contents st in
  0 <= resx → 0 <= resy → 21 * resx * resy + resy + 4 < 4294967296 →
  length (DG_ScreenBuffer st') = (Z.to_nat resx * Z.to_nat resy)%nat ∧
  length (output_buffer st') = Z.to_nat (21 * resx * resy + resy + 4) ∧
  (length (frame_text (Z.to_nat resy) (Z.to_nat resx) (DG_ScreenBuffer st'))
   < length (output_buffer st'))%nat ∧
  DOOMGENERIC_RESX st' = resx ∧ DOOMGENERIC_RESY st' = resy ∧
  stdout st' = stdout st ∧ input st' = input st.
Proof.
  intros resx resy st' Hx Hy Hsize. unfold st', dg_Create, DG_Init. clear st'.
  cbn [DOOMGENERIC_RESX DOOMGENERIC_RESY DG_ScreenBuffer output_buffer stdout input].
  fold resx resy. clearbody resx resy. rewrite !length_malloc, length_frame_text.
  assert (Hxy : 0 <= resx * resy) by nia.
  assert (Hxy4 : resx * resy * 4 < 4294967296) by nia.
  rewrite (to_uint32_small (resx * resy)) by nia.
  rewrite (to_uint32_small (resx * resy * 4)) by nia.
  rewrite DG_Init_size_once. unfold output_buffer_size.
  rewrite (to_uint32_small (21 * resx * resy + resy + 4)) by nia.
  rewrite Z.div_mul by lia.
  split_and!; try reflexivity; nia.
Qed.

Lemma dg_Create_sizes_witness :
  length (DG_ScreenBuffer (dg_Create (fun _ => 0) (fun _ => 63) black_frame)) =
  (160 * 100)%nat.
Proof.
  assert (Hx : 0 <= DOOMGENERIC_RESX black_frame) by (simpl; unfold RESX_default; lia).
  assert (Hy : 0 <= DOOMGENERIC_RESY black_frame) by (simpl; unfold RESY_default; lia).
  assert (Hsize : 21 * DOOMGENERIC_RESX black_frame * DOOMGENERIC_RESY black_frame
                  + DOOMGENERIC_RESY black_frame + 4 < 4294967296)
    by (simpl; unfold RESX_default, RESY_default; lia).
  destruct (dg_Create_sizes (fun _ => 0) (fun _ => 63) black_frame Hx Hy Hsize)
    as (H & _).
  rewrite H. reflexivity.
Defined.

(** X8.  For a byte the macro stores three decimal digits, most
    significant first, that read back as the byte, advances [buf] by 3
    and changes no other cell. *)
Theorem BYTE_TO_TEXT_digits (buf : nat) (mem : list Z) (byte : Z) :
  0 <= byte <= 255 → (buf + 3 <= length mem)%nat →
  ∃ d2 d1 d0,
    BYTE_TO_TEXT (buf, mem) byte =
      ((buf + 3)%nat, take buf mem ++ [d2; d1; d0] ++ drop (buf + 3) mem) ∧
    48 <= d2 <= 57 ∧ 48 <= d1 <= 57 ∧ 48 <= d0 <= 57 ∧
    100 * (d2 - 48) + 10 * (d1 - 48) + (d0 - 48) = byte.
Proof.
  intros Hb Hlen. unfold BYTE_TO_TEXT.
  rewrite (to_uint32_small byte) by lia.
  assert (H2 : to_char (to_uint32 (48 + byte / 100)) = 48 + byte / 100).
  { unfold to_char, to_uint32. change (2 ^ 32) with 4294967296. change (2 ^ 8) with 256.
    Z.div_mod_to_equations. lia. }
  assert (H1 : to_char (to_uint32 (48 + byte / 10 mod 10)) = 48 + byte / 10 mod 10).
  { unfold to_char, to_uint32. change (2 ^ 32) with 4294967296. change (2 ^ 8) with 256.
    Z.div_mod_to_equations. lia. }
  assert (H0 : to_char (to_uint32 (48 + byte mod 10)) = 48 + byte mod 10).
  { unfold to_char, to_uint32. change (2 ^ 32) with 4294967296. change (2 ^ 8) with 256.
    Z.div_mod_to_equations. lia. }
  rewrite H2, H1, H0.
  exists (48 + byte / 100), (48 + byte / 10 mod 10), (48 + byte mod 10).
  split; [|split_and!; Z.div_mod_to_equations; lia].
  f_equal; [lia|].
  rewrite <- (take_drop buf mem) at 1.
  assert (Hbuf : length (take buf mem) = buf) by (rewrite length_take; lia).
  rewrite <- (take_drop 3 (drop buf mem)) at 1.
  assert (Ht : length (take 3 (drop buf mem)) = 3%nat)
    by (rewrite length_take, length_drop; lia).
  destruct (take 3 (drop buf mem)) as [|x2 [|x1 [|x0 [|]]]]; try discriminate Ht.
  rewrite drop_drop.
  rewrite !insert_app_r_alt by lia. rewrite Hbuf.
  replace (buf - buf)%nat with 0%nat by lia.
  replace (S buf - buf)%nat with 1%nat by lia.
  replace (S (S buf) - buf)%nat with 2%nat by lia.
  reflexivity.
Qed.

Lemma BYTE_TO_TEXT_digits_witness :
  ∃ d2 d1 d0,
    BYTE_TO_TEXT (1%nat, [59; 0; 0; 0; 59]) 207 =
      ((1 + 3)%nat, take 1 [59; 0; 0; 0; 59] ++ [d2; d1; d0] ++ drop (1 + 3) [59; 0; 0; 0; 59]) ∧
    48 <= d2 <= 57 ∧ 48 <= d1 <= 57 ∧ 48 <= d0 <= 57 ∧
    100 * (d2 - 48) + 10 * (d1 - 48) + (d0 - 48) = 207.
Proof. apply (BYTE_TO_TEXT_digits 1 [59; 0; 0; 0; 59] 207); [lia | simpl; lia]. Defined.

(** ** The queue under traffic *)

Lemma serve_fifo (ops : list qop) : ∀ (s : Input) (waiting : list (Z * Z)),
  well_sized s → cursors_in_range s →
  pending s = map keyData waiting → Forall packable waiting →
  within_capacity ops (length waiting) →
  serve ops s = fifo ops waiting.
Proof.
  induction ops as [|[p k|] ops IH]; intros s waiting Hs Hc Hp Hpk Hcap; [done| |].
  - destruct Hcap as (Hn & Hpack & Hcap). simpl.
    apply IH.
    + by apply addKeyToQueue_well_sized.
    + by apply addKeyToQueue_cursors.
    + rewrite pending_enqueue, Hp, map_app; try done.
      rewrite Hp, length_map. lia.
    + apply Forall_app. split; [done|]. by apply Forall_cons_2.
    + rewrite length_app. simpl. by rewrite Nat.add_1_r.
  - simpl in Hcap. destruct waiting as [|[p k] waiting].
    + simpl in *. apply pending_nil_iff in Hp; [|done].
      unfold DG_GetKey. rewrite Hp, Z.eqb_refl. f_equal.
      apply IH; try done. by apply pending_nil_iff.
    + simpl in Hp.
      destruct (dequeue_pending 0 0 _ _ s Hc Hp) as (s' & Hget & Hp' & Hc' & Hs').
      apply Forall_cons in Hpk as [[Hp1 Hk1] Hpk]. simpl in Hp1, Hk1.
      cbn [serve fifo]. rewrite Hget. unfold keyData at 1 2. cbn [fst snd].
      destruct (keyData_round_trip p k Hp1 Hk1) as [-> ->].
      f_equal. by apply IH; auto.
Qed.

(** X9.  From an empty queue, any interleaving of enqueues and polls
    that never has more than 15 events waiting gets from the ring what
    an unbounded first-in first-out list gives. *)
Theorem queue_serves_first_in_first_out (ops : list qop) (s : Input) :
  well_sized s → cursors_in_range s →
  s_KeyQueueReadIndex s = s_KeyQueueWriteIndex s →
  within_capacity ops 0 →
  serve ops s = fifo ops [].
Proof.
  intros Hs Hc Hempty Hcap. apply serve_fifo; try done.
  by apply pending_nil_iff.
Qed.

Lemma queue_serves_first_in_first_out_witness :
  serve [Put 1 32; Get; Put 1 13; Put 0 32; Get; Get; Get]
        (dequeue_n 14 (enqueue_all (replicate 14 (1, 9)) initial_input)).2 =
  fifo [Put 1 32; Get; Put 1 13; Put 0 32; Get; Get; Get] [].
Proof.
  apply queue_serves_first_in_first_out.
  - split; reflexivity.
  - vm_compute. repeat split; discriminate.
  - reflexivity.
  - simpl. unfold packable. simpl. lia.
Defined.

(** X10.  When the write cursor stands one slot before the read cursor,
    15 events are waiting, and one more enqueue makes the cursors equal:
    the queue reports empty and all 16 events are lost. *)
Theorem enqueue_when_full_empties_queue (pressed key p k : Z) (s : Input) :
  cursors_in_range s →
  (s_KeyQueueWriteIndex s + 1) mod KEYQUEUE_SIZE = s_KeyQueueReadIndex s →
  length (pending s) = 15%nat ∧
  pending (addKeyToQueue pressed key s) = [] ∧
  DG_GetKey p k (addKeyToQueue pressed key s) =
    (0, (p, k), addKeyToQueue pressed key s).
Proof.
  intros [Hw Hr] Hfull.
  assert (Heq : s_KeyQueueReadIndex (addKeyToQueue pressed key s) =
                s_KeyQueueWriteIndex (addKeyToQueue pressed key s)).
  { simpl. rewrite cursor_advance by exact Hw. by rewrite Hfull. }
  split; [|split].
  - rewrite length_pending. unfold KEYQUEUE_SIZE in *.
    Z.div_mod_to_equations. lia.
  - apply pending_nil_iff; [|exact Heq].
    apply addKeyToQueue_cursors. by split.
  - unfold DG_GetKey. rewrite Heq, Z.eqb_refl. reflexivity.
Qed.

Lemma enqueue_when_full_empties_queue_witness :
  let s := enqueue_all (replicate 15 (1, 13)) initial_input in
  length (pending s) = 15%nat ∧
  pending (addKeyToQueue 1 32 s) = [] ∧
  DG_GetKey 0 0 (addKeyToQueue 1 32 s) = (0, (0, 0), addKeyToQueue 1 32 s).
Proof.
  intros s. apply (enqueue_when_full_empties_queue 1 32 0 0 s).
  - vm_compute. repeat split; discriminate.
  - reflexivity.
Defined.

Lemma to_ushort_range (x : Z) : 0 <= to_ushort x < 65536.
Proof. unfold to_ushort. change (2 ^ 16) with 65536. Z.div_mod_to_equations. lia. Qed.

Lemma addKeyToQueue_queue_inv p k s : queue_inv s → queue_inv (addKeyToQueue p k s).
Proof.
  intros [Hq Hw]. split; simpl.
  - apply Forall_insert; [exact Hq | apply to_ushort_range].
  - rewrite Hw, length_app. simpl. unfold KEYQUEUE_SIZE.
    rewrite to_uint32_small by (Z.div_mod_to_equations; lia).
    Z.div_mod_to_equations. lia.
Qed.

Lemma enqueue_all_queue_inv evs : ∀ s, queue_inv s → queue_inv (enqueue_all evs s).
Proof.
  induction evs as [|e evs IH]; intros s Hs; [done|].
  apply (IH (addKeyToQueue e.1 e.2 s)). by apply addKeyToQueue_queue_inv.
Qed.

Lemma aged_range (c : Z) :
  0 <= c <= KEY_HOLD_FRAMES → 0 <= aged c <= KEY_HOLD_FRAMES.
Proof. unfold aged, KEY_HOLD_FRAMES. destruct (0 <? c) eqn:E; lia. Qed.

Section RunInvariants.
Context {dk : doomkeys}.

Lemma pressKey_loop_keyHold js key : ∀ s,
  pressKey_loop js key s = s ∨
  ∃ j, pressKey_loop js key s = set_keyHold (<[j := KEY_HOLD_FRAMES]> (keyHold s)) s.
Proof.
  induction js as [|j js IH]; intros s; simpl; [by left|].
  destruct (_ =? key); [right; by exists j | apply IH].
Qed.

Lemma step_queue_hold_inv (o : op) (s : Input) :
  well_sized s ∧ queue_inv s ∧ hold_inv s →
  well_sized (step s o) ∧ queue_inv (step s o) ∧ hold_inv (step s o).
Proof.
  intros (Hs & Hq & Hh). destruct o as [p k | p k | key | ]; simpl.
  - split_and!; [by apply addKeyToQueue_well_sized | by apply addKeyToQueue_queue_inv | done].
  - split; [by apply DG_GetKey_well_sized|].
    unfold DG_GetKey. by destruct (_ =? _).
  - split; [by apply pressKey_well_sized|]. unfold pressKey.
    pose proof (addKeyToQueue_queue_inv 1 (to_uchar key) s Hq) as Hq'.
    destruct (pressKey_loop_keyHold (seq 0 KEY_HOLD_KEYS) key
                (addKeyToQueue 1 (to_uchar key) s)) as [-> | [j ->]]; [done|].
    split; [exact Hq'|]. unfold hold_inv. simpl.
    apply Forall_insert; [exact Hh | unfold KEY_HOLD_FRAMES; lia].
  - split; [by apply decrementKeyCtrs_well_sized|].
    rewrite decrementKeyCtrs_spec by exact Hs. split.
    + by apply enqueue_all_queue_inv.
    + unfold hold_inv.
      destruct (enqueue_all_invariants (due keyHoldKeys (keyHold s))
                  (set_keyHold (aged <$> keyHold s) s)) as (_ & _ & _ & ->).
      simpl. apply Forall_fmap. eapply Forall_impl; [exact Hh|].
      intros c Hc. by apply aged_range.
Qed.

Lemma run_queue_hold_inv (ops : list op) : ∀ s,
  well_sized s ∧ queue_inv s ∧ hold_inv s →
  well_sized (run ops s) ∧ queue_inv (run ops s) ∧ hold_inv (run ops s).
Proof.
  induction ops as [|o ops IH]; intros s Hinv; [exact Hinv|].
  apply (IH (step s o)). by apply step_queue_hold_inv.
Qed.

Lemma initial_queue_hold_inv :
  well_sized initial_input ∧ queue_inv initial_input ∧ hold_inv initial_input.
Proof.
  split; [done|]. split; [split|].
  - apply Forall_replicate. lia.
  - reflexivity.
  - apply Forall_replicate. unfold KEY_HOLD_FRAMES. lia.
Qed.

(** X11.  In every state reached from the initial one, [DG_GetKey]
    either returns 0 and leaves its outputs, or returns 1 with both
    outputs in [[0, 255]]. *)
Theorem DG_GetKey_outputs_are_bytes (ops : list op) (pressed doomKey : Z) :
  let res := DG_GetKey pressed doomKey (run ops initial_input) in
  res.1 = (0, (pressed, doomKey)) ∨
  (res.1.1 = 1 ∧ 0 <= res.1.2.1 <= 255 ∧ 0 <= res.1.2.2 <= 255).
Proof.
  intros res. unfold res, DG_GetKey.
  destruct (run_queue_hold_inv ops initial_input initial_queue_hold_inv)
    as (_ & [Hq _] & _).
  destruct (_ =? _); [by left|]. right. cbn [fst snd].
  set (d := default 0 (s_KeyQueue (run ops initial_input) !! _)).
  assert (Hd : 0 <= d < 65536).
  { unfold d. destruct (_ !! _) as [x|] eqn:Hx; simpl; [|lia].
    exact (proj1 (Forall_lookup _ _) Hq _ _ Hx). }
  split; [reflexivity|]. split.
  - rewrite Z.shiftr_div_pow2 by lia. change (2 ^ 8) with 256.
    Z.div_mod_to_equations. lia.
  - unfold to_uchar. change (2 ^ 8) with 256. Z.div_mod_to_equations. lia.
Qed.

(** X12.  The write cursor is the number of [addKeyToQueue] calls so far
    modulo the capacity, whoever made them. *)
Theorem write_cursor_counts_enqueues (ops : list op) :
  let s := run ops initial_input in
  s_KeyQueueWriteIndex s = Z.of_nat (length (enqueued s)) mod KEYQUEUE_SIZE.
Proof.
  intros s.
  by destruct (run_queue_hold_inv ops initial_input initial_queue_hold_inv)
    as (_ & [_ Hw] & _).
Qed.

(** X13.  In every state reached from the initial one the hold table
    has its seven counters, each between 0 and [KEY_HOLD_FRAMES]. *)
Theorem hold_counters_bounded (ops : list op) :
  let s := run ops initial_input in
  length (keyHold s) = KEY_HOLD_KEYS ∧
  Forall (fun c => 0 <= c <= KEY_HOLD_FRAMES) (keyHold s).
Proof.
  intros s.
  destruct (run_queue_hold_inv ops initial_input initial_queue_hold_inv)
    as ([_ Hlen] & _ & Hh).
  by split.
Qed.
End RunInvariants.

(** ** The hold table under ticks *)

Section HoldTableMore.
Context {dk : doomkeys}.

(** X14.  One tick lowers every positive counter by one and leaves the
    others; what it enqueues is one release for each counter that stood
    at 1, never a press, and only keys of the hold table. *)
Theorem decrementKeyCtrs_effect (s : Input) :
  well_sized s →
  ∃ evs,
    decrementKeyCtrs s = enqueue_all evs (set_keyHold (aged <$> keyHold s) s) ∧
    enqueued (decrementKeyCtrs s) = enqueued s ++ evs ∧
    keyHold (decrementKeyCtrs s) = aged <$> keyHold s ∧
    Forall (fun e => e.1 = 0 ∧ e.2 ∈ to_uchar <$> keyHoldKeys) evs ∧
    length evs = length (filter (fun c => c = 1) (keyHold s)).
Proof.
  intros Hs. exists (due keyHoldKeys (keyHold s)).
  destruct (due_events keyHoldKeys (keyHold s)) as [Hev Hlen].
  split_and!.
  - by apply decrementKeyCtrs_spec.
  - rewrite decrementKeyCtrs_spec by done. by rewrite enqueued_enqueue_all.
  - by apply keyHold_decrementKeyCtrs.
  - exact Hev.
  - rewrite Hlen, length_keyHoldKeys. destruct Hs as [_ <-].
    by rewrite firstn_all.
Qed.

Lemma ticks_add n m s : ticks (n + m) s = ticks n (ticks m s).
Proof. unfold ticks. apply Nat.iter_add. Qed.

Lemma ticks_idle n s :
  Forall (fun c => c <= 0) (keyHold s) → ticks n s = s.
Proof.
  intros Hidle. induction n as [|n IH]; [done|].
  rewrite ticks_S, IH. by apply decrementKeyCtrs_idle.
Qed.

(** X15.  Whatever happened before, [KEY_HOLD_FRAMES] ticks without a
    press bring every counter to 0, and from then on a tick changes
    nothing at all. *)
Theorem ticks_settle (ops : list op) (n : nat) :
  let s := ticks (n + Z.to_nat KEY_HOLD_FRAMES) (run ops initial_input) in
  Forall (fun c => c = 0) (keyHold s) ∧ decrementKeyCtrs s = s.
Proof.
  intros s. unfold s. clear s. rewrite ticks_add.
  destruct (run_queue_hold_inv ops initial_input initial_queue_hold_inv)
    as (Hs & _ & Hh).
  set (s0 := run ops initial_input) in *.
  assert (Hs1 : well_sized (ticks 1 s0)) by (by apply decrementKeyCtrs_well_sized).
  assert (Hz : Forall (fun c => c = 0) (keyHold (ticks (Z.to_nat KEY_HOLD_FRAMES) s0))).
  { change (Z.to_nat KEY_HOLD_FRAMES) with 2%nat. rewrite ticks_S.
    rewrite keyHold_decrementKeyCtrs by exact Hs1.
    change (ticks 1 s0) with (decrementKeyCtrs s0).
    rewrite keyHold_decrementKeyCtrs by exact Hs.
    apply Forall_fmap, Forall_fmap. eapply Forall_impl; [exact Hh|].
    intros c Hc. unfold KEY_HOLD_FRAMES in Hc.
    assert (Hcases : c = 0 ∨ c = 1 ∨ c = 2) by lia.
    destruct Hcases as [-> | [-> | ->]]; reflexivity. }
  assert (Hidle : Forall (fun c => c <= 0) (keyHold (ticks (Z.to_nat KEY_HOLD_FRAMES) s0))).
  { eapply Forall_impl; [exact Hz|]. intros c Hc. simpl in Hc. subst c. reflexivity. }
  rewrite ticks_idle by exact Hidle. split; [exact Hz|].
  by apply decrementKeyCtrs_idle.
Qed.

Lemma pressKey_loop_miss js key s :
  Forall (fun j => ∃ k, keyHoldKeys !! j = Some k ∧ k ≠ key) js →
  pressKey_loop js key s = s.
Proof.
  induction 1 as [|j js (k & Hk & Hne) _ IH]; [done|].
  simpl. rewrite Hk. simpl. apply Z.eqb_neq in Hne. by rewrite Hne.
Qed.

Lemma release_count_due_absent key holds :
  -128 <= key <= 127 → key ∉ keyHoldKeys →
  release_count key (due keyHoldKeys holds) = 0%nat.
Proof.
  intros Hrange Hout.
  destruct (due_events keyHoldKeys holds) as [Hev _].
  unfold release_count. induction Hev as [|[p k] evs [_ Hk] _ IH]; [done|].
  rewrite filter_cons_False; [exact IH|].
  intros [= -> ->]. apply Hout. cbn [snd] in Hk.
  apply list_elem_of_fmap in Hk as (k' & Hk' & Hin).
  assert (k' = key); [|by subst].
  unfold keyHoldKeys in Hin. apply list_elem_of_fmap in Hin as (x & -> & _).
  revert Hk'. unfold to_uchar, to_char. change (2 ^ 8) with 256.
  Z.div_mod_to_equations. lia.
Qed.

(** X16.  Pressing a key that is not in the hold table only enqueues
    the press, and no number of ticks ever enqueues its release. *)
Theorem press_outside_table (key : Z) (s : Input) (n : nat) :
  well_sized s → -128 <= key <= 127 → key ∉ keyHoldKeys →
  pressKey key s = addKeyToQueue 1 (to_uchar key) s ∧
  release_count key (enqueued (ticks n (pressKey key s))) =
    release_count key (enqueued s).
Proof.
  intros Hs Hrange Hout.
  assert (Hpress : pressKey key s = addKeyToQueue 1 (to_uchar key) s).
  { unfold pressKey. apply pressKey_loop_miss. apply Forall_forall.
    intros j Hj. apply elem_of_seq in Hj.
    destruct (keyHoldKeys !! j) as [k|] eqn:Hk.
    - exists k. split; [done|]. intros ->. apply Hout.
      by apply list_elem_of_lookup_2 in Hk.
    - apply lookup_ge_None in Hk. rewrite length_keyHoldKeys in Hk. lia. }
  split; [exact Hpress|]. rewrite Hpress.
  assert (Hticks : ∀ m s', well_sized s' →
            well_sized (ticks m s') ∧
            release_count key (enqueued (ticks m s')) = release_count key (enqueued s')).
  { induction m as [|m IH]; intros s' Hs'; [done|]. rewrite ticks_S.
    destruct (IH s' Hs') as [Hsm Hcm]. split; [by apply decrementKeyCtrs_well_sized|].
    rewrite decrementKeyCtrs_spec by exact Hsm.
    rewrite enqueued_enqueue_all, release_count_app.
    unfold set_keyHold at 1. cbn [enqueued]. rewrite Hcm.
    rewrite release_count_due_absent by done. lia. }
  destruct (Hticks n (addKeyToQueue 1 (to_uchar key) s)) as [_ ->];
    [by apply addKeyToQueue_well_sized|].
  simpl. apply release_count_press.
Qed.

Lemma pressKey_loop_first key s n : ∀ a,
  (∃ j, (a <= j < a + n)%nat ∧ keyHoldKeys !! j = Some key) →
  ∃ j, (a <= j)%nat ∧ keyHoldKeys !! j = Some key ∧
       (∀ i, (a <= i < j)%nat → keyHoldKeys !! i ≠ Some key) ∧
       pressKey_loop (seq a n) key s =
       set_keyHold (<[j := KEY_HOLD_FRAMES]> (keyHold s)) s.
Proof.
  induction n as [|n IH]; intros a (j & Hj & Hkey); [lia|]. simpl.
  destruct (keyHoldKeys !! a) as [k|] eqn:Ha.
  - simpl. destruct (k =? key) eqn:Hk.
    + apply Z.eqb_eq in Hk. subst k. exists a. split_and!; try done. intros i Hi. lia.
    + apply Z.eqb_neq in Hk. destruct (IH (S a)) as (j' & Hj' & Hkey' & Hfirst & Heq).
      { exists j. split; [|done]. destruct (decide (j = a)) as [->|]; [|lia].
        rewrite Ha in Hkey. by injection Hkey. }
      exists j'. split_and!; [lia | done | | done].
      intros i Hi. destruct (decide (i = a)) as [->|].
      * rewrite Ha. by intros [= ->].
      * apply Hfirst. lia.
  - apply lookup_ge_None in Ha. apply lookup_lt_Some in Hkey. lia.
Qed.

(** X17.  Pressing a key of the hold table enqueues the press and sets
    the counter of the first slot that holds the key to
    [KEY_HOLD_FRAMES]; every other counter keeps its value. *)
Theorem pressKey_arms_first_slot (key : Z) (s : Input) :
  key ∈ keyHoldKeys →
  ∃ j, keyHoldKeys !! j = Some key ∧
       (∀ i, (i < j)%nat → keyHoldKeys !! i ≠ Some key) ∧
       pressKey key s =
       set_keyHold (<[j := KEY_HOLD_FRAMES]> (keyHold s))
                   (addKeyToQueue 1 (to_uchar key) s) ∧
       (∀ i, i ≠ j → keyHold (pressKey key s) !! i = keyHold s !! i).
Proof.
  intros Hin. apply list_elem_of_lookup in Hin as [j0 Hj0].
  destruct (pressKey_loop_first key (addKeyToQueue 1 (to_uchar key) s) KEY_HOLD_KEYS 0)
    as (j & _ & Hj & Hfirst & Heq).
  { exists j0. split; [|done]. apply lookup_lt_Some in Hj0.
    rewrite length_keyHoldKeys in Hj0. lia. }
  exists j. split_and!; [done | | exact Heq | ].
  - intros i Hi. apply Hfirst. lia.
  - intros i Hi. unfold pressKey. rewrite Heq. simpl.
    by rewrite list_lookup_insert_ne.
Qed.
End HoldTableMore.

Lemma decrementKeyCtrs_effect_witness :
  let s := pressKey (dk := doomkeys_h) (to_char 163) initial_input in
  ∃ evs,
    decrementKeyCtrs (dk := doomkeys_h) s =
      enqueue_all evs (set_keyHold (aged <$> keyHold s) s) ∧
    enqueued (decrementKeyCtrs (dk := doomkeys_h) s) = enqueued s ++ evs ∧
    keyHold (decrementKeyCtrs (dk := doomkeys_h) s) = aged <$> keyHold s ∧
    Forall (fun e => e.1 = 0 ∧ e.2 ∈ to_uchar <$> keyHoldKeys (dk := doomkeys_h)) evs ∧
    length evs = length (filter (fun c => c = 1) (keyHold s)).
Proof.
  intros s. apply (decrementKeyCtrs_effect (dk := doomkeys_h) s). split; reflexivity.
Defined.

Lemma press_outside_table_witness :
  pressKey (dk := doomkeys_h) 32 initial_input = addKeyToQueue 1 (to_uchar 32) initial_input ∧
  release_count 32 (enqueued (ticks (dk := doomkeys_h) 5 (pressKey (dk := doomkeys_h) 32 initial_input))) =
    release_count 32 (enqueued initial_input).
Proof.
  apply (press_outside_table (dk := doomkeys_h) 32 initial_input 5).
  - split; reflexivity.
  - lia.
  - apply (bool_decide_unpack _). vm_compute. exact I.
Defined.

Lemma pressKey_arms_first_slot_witness :
  ∃ j, keyHoldKeys (dk := doomkeys_h) !! j = Some (to_char 173) ∧
       (∀ i, (i < j)%nat → keyHoldKeys (dk := doomkeys_h) !! i ≠ Some (to_char 173)) ∧
       pressKey (dk := doomkeys_h) (to_char 173) initial_input =
       set_keyHold (<[j := KEY_HOLD_FRAMES]> (keyHold initial_input))
                   (addKeyToQueue 1 (to_uchar (to_char 173)) initial_input) ∧
       (∀ i, i ≠ j → keyHold (pressKey (dk := doomkeys_h) (to_char 173) initial_input) !! i
                     = keyHold initial_input !! i).
Proof.
  apply (pressKey_arms_first_slot (dk := doomkeys_h) (to_char 173) initial_input).
  apply (bool_decide_unpack _). vm_compute. exact I.
Defined.

(** ** From the press to the release, through the frames *)

Lemma dequeue_n_drain l : ∀ s,
  cursors_in_range s → pending s = l →
  (dequeue_n (S (length l)) s).1 =
  map (fun d => (1, (Z.shiftr d 8, to_uchar (Z.land d 255)))) l ++ [(0, (0, 0))].
Proof.
  induction l as [|d l IH]; intros s Hc Hp.
  - apply pending_nil_iff in Hp; [|exact Hc]. simpl. unfold DG_GetKey.
    rewrite Hp, Z.eqb_refl. reflexivity.
  - destruct (dequeue_pending 0 0 d l s Hc Hp) as (s' & Hget & Hp' & Hc' & _).
    change (dequeue_n (S (length (d :: l))) s)
      with (let '(ret, out, s1) := DG_GetKey 0 0 s in
            let '(rest, s2) := dequeue_n (S (length l)) s1 in ((ret, out) :: rest, s2)).
    rewrite Hget. pose proof (IH s' Hc' Hp') as IH'.
    destruct (dequeue_n (S (length l)) s') as [rest s2]. simpl in *. by rewrite IH'.
Qed.

Lemma due_none (holds : list Z) : ∀ keys,
  Forall (fun c => c ≠ 1) holds → due keys holds = [].
Proof.
  unfold due. induction holds as [|c l IH]; intros [|k ks] Hne; try done.
  apply Forall_cons in Hne as [Hc Hl]. simpl.
  rewrite (IH ks Hl). apply Z.eqb_neq in Hc. by rewrite Hc.
Qed.

Lemma due_single (holds : list Z) : ∀ keys j k,
  keys !! j = Some k → (j < length holds)%nat →
  Forall (fun c => c = 0) holds →
  due keys (<[j := 1]> holds) = [(0, to_uchar k)].
Proof.
  unfold due. induction holds as [|c l IH]; intros [|k0 ks] j k Hk Hj Hz;
    try done; simpl in Hj; [lia|].
  apply Forall_cons in Hz as [-> Hl].
  destruct j as [|j]; simpl in *.
  - injection Hk as ->. f_equal.
    apply (due_none l ks). eapply Forall_impl; [exact Hl|]. intros c ->. done.
  - apply (IH ks j k Hk); [lia | exact Hl].
Qed.

Lemma pending_set_keyHold h s : pending (set_keyHold h s) = pending s.
Proof. reflexivity. Qed.

Section EndToEnd.
Context {dk : doomkeys}.

(** X18.  Queue empty and hold table idle: after the press of a hold
    key and one frame the queue delivers the press alone; after two
    frames it delivers the press and then the release. *)
Theorem press_then_frames (key : Z) (st : State) :
  well_sized (input st) → cursors_in_range (input st) →
  s_KeyQueueReadIndex (input st) = s_KeyQueueWriteIndex (input st) →
  Forall (fun c => c = 0) (keyHold (input st)) →
  key ∈ keyHoldKeys →
  let st1 := with_input (pressKey key (input st)) st in
  (dequeue_n 2 (input (frames 1 st1))).1 =
    [(1, (1, to_uchar key)); (0, (0, 0))] ∧
  (dequeue_n 3 (input (frames 2 st1))).1 =
    [(1, (1, to_uchar key)); (1, (0, to_uchar key)); (0, (0, 0))].
Proof.
  intros Hs Hc Hempty Hzero Hin st1.
  set (s := input st) in *.
  pose proof (to_uchar_range key) as Huk.
  destruct (pressKey_spec key s Hin) as (j & Hj & Hpress).
  assert (Hjlen : (j < length (keyHold s))%nat).
  { apply lookup_lt_Some in Hj. rewrite length_keyHoldKeys in Hj.
    destruct Hs as [_ ->]. exact Hj. }
  set (s0 := addKeyToQueue 1 (to_uchar key) s) in *.
  assert (Hs0 : well_sized s0) by (by apply addKeyToQueue_well_sized).
  assert (Hc0 : cursors_in_range s0) by (by apply addKeyToQueue_cursors).
  assert (Hp0 : pending s0 = [to_ushort (Z.lor (Z.shiftl 1 8) (to_uchar key))]).
  { unfold s0. rewrite pending_enqueue; try done.
    - apply pending_nil_iff in Hempty; [|done]. by rewrite Hempty.
    - apply pending_nil_iff in Hempty; [|done]. rewrite Hempty. simpl. lia. }
  (* after the press *)
  set (s1 := set_keyHold (<[j := KEY_HOLD_FRAMES]> (keyHold s)) s0) in *.
  assert (Hs1 : well_sized s1).
  { destruct Hs0 as [Hq Hh]. split; [exact Hq|]. simpl. by rewrite length_insert. }
  (* first frame *)
  assert (Ht1 : decrementKeyCtrs s1 = set_keyHold (<[j := 1]> (keyHold s)) s0).
  { rewrite decrementKeyCtrs_spec by exact Hs1. simpl.
    rewrite due_none.
    2:{ apply Forall_insert; [|unfold KEY_HOLD_FRAMES; lia].
        eapply Forall_impl; [exact Hzero|]. intros c ->. done. }
    simpl. rewrite list_fmap_insert. change (aged KEY_HOLD_FRAMES) with 1.
    replace (aged <$> keyHold s) with (keyHold s); [reflexivity|].
    rewrite <- (list_fmap_id (keyHold s)) at 1.
    apply Forall_fmap_ext. eapply Forall_impl; [exact Hzero|]. by intros c ->. }
  set (s2 := set_keyHold (<[j := 1]> (keyHold s)) s0) in *.
  assert (Hs2 : well_sized s2).
  { destruct Hs0 as [Hq Hh]. split; [exact Hq|]. simpl. by rewrite length_insert. }
  (* second frame *)
  assert (Ht2 : decrementKeyCtrs s2 =
                addKeyToQueue 0 (to_uchar key) (set_keyHold (aged <$> <[j := 1]> (keyHold s)) s0)).
  { rewrite decrementKeyCtrs_spec by exact Hs2. simpl.
    by rewrite (due_single (keyHold s) keyHoldKeys j key Hj Hjlen Hzero). }
  assert (Hin1 : input (frames 1 st1) = s2).
  { destruct (frames_keep 1 st1) as (_ & _ & _ & _ & ->).
    unfold st1. cbn [with_input input]. rewrite Hpress. fold s1.
    rewrite <- Ht1. reflexivity. }
  assert (Hin2 : input (frames 2 st1) =
                 addKeyToQueue 0 (to_uchar key)
                   (set_keyHold (aged <$> <[j := 1]> (keyHold s)) s0)).
  { destruct (frames_keep 2 st1) as (_ & _ & _ & _ & ->).
    unfold st1. cbn [with_input input]. rewrite Hpress. fold s1.
    rewrite ticks_S. change (ticks 1 s1) with (decrementKeyCtrs s1).
    by rewrite Ht1, <- Ht2. }
  destruct (keyData_round_trip 1 (to_uchar key)) as [Hd1 Hd2]; [lia | exact Huk |].
  destruct (keyData_round_trip 0 (to_uchar key)) as [He1 He2]; [lia | exact Huk |].
  cbv zeta in Hd1, Hd2, He1, He2.
  split.
  - rewrite Hin1.
    pose proof (dequeue_n_drain [_] s2 Hc0 Hp0) as Hdrain.
    cbn [length] in Hdrain. rewrite Hdrain. cbn [map app]. by rewrite Hd1, Hd2.
  - rewrite Hin2.
    set (s3 := set_keyHold (aged <$> <[j := 1]> (keyHold s)) s0).
    assert (Hp3 : pending (addKeyToQueue 0 (to_uchar key) s3) =
                  [to_ushort (Z.lor (Z.shiftl 1 8) (to_uchar key));
                   to_ushort (Z.lor (Z.shiftl 0 8) (to_uchar key))]).
    { rewrite pending_enqueue.
      - unfold s3. by rewrite pending_set_keyHold, Hp0.
      - destruct Hs0 as [Hq Hh]. split; [exact Hq|]. simpl.
        by rewrite length_fmap, length_insert.
      - exact Hc0.
      - unfold s3. rewrite pending_set_keyHold, Hp0. simpl. lia. }
    pose proof (dequeue_n_drain [_; _] _
                  (addKeyToQueue_cursors 0 (to_uchar key) s3 Hc0) Hp3) as Hdrain.
    cbn [length] in Hdrain. rewrite Hdrain. cbn [map app].
    by rewrite Hd1, Hd2, He1, He2.
Qed.
End EndToEnd.

Lemma press_then_frames_witness :
  let st1 := with_input (pressKey (dk := doomkeys_h) (to_char 174) (input (tiny_frame 0)))
               (tiny_frame 0) in
  (dequeue_n 2 (input (frames (dk := doomkeys_h) 1 st1))).1 =
    [(1, (1, to_uchar (to_char 174))); (0, (0, 0))] ∧
  (dequeue_n 3 (input (frames (dk := doomkeys_h) 2 st1))).1 =
    [(1, (1, to_uchar (to_char 174))); (1, (0, to_uchar (to_char 174))); (0, (0, 0))].
Proof.
  apply (press_then_frames (dk := doomkeys_h) (to_char 174) (tiny_frame 0)).
  - split; reflexivity.
  - vm_compute. repeat split; discriminate.
  - reflexivity.
  - apply Forall_replicate. reflexivity.
  - apply (bool_decide_unpack _). vm_compute. exact I.
Defined.
